(** * dotsProject: the chain selector, the compactor and the round controller

    A shallow embedding of [MainScene] (the scene class of the game) and a
    verification of its selection, compaction, scoring and round logic.

    Circles are JavaScript objects compared by reference ([===],
    [Array.prototype.includes]) and mutated in place ([gridY] when a circle
    falls, [active] when Phaser destroys it), so a circle is modelled as a
    reference (a [nat]) into a store of circle records.  The fields of
    [this] that the logic reads or writes form the record [scene]; every
    method is a function on scenes.  A method that can raise a [TypeError]
    (a property read on [undefined]) returns [option scene], [None] being the
    uncaught exception; a scene is not followed past an exception.  Calls
    into the three manager classes only draw, and are left out, as is the
    [pointermove] handler, which moves the pointer body and draws a line. *)

From Stdlib Require Import HexadecimalString HexadecimalZ HexadecimalPos.
From stdpp Require Import base numbers option functions list strings pretty gmap.

Local Open Scope Z_scope.

(** ** Circles and the store *)

(** The attributes [createNewCircle] sets on a circle, and Phaser's [active]
    flag, which [destroy()] clears. *)
Record circle := Circle {
  color : Z;
  gridX : Z;
  gridY : Z;
  active : bool
}.

(** The store maps every reference to the object it denotes; references at
    or above the allocation counter [nextId] are not allocated yet. *)
Abbreviation store := (nat → circle).

Definition blank : circle := Circle 0 0 0 false.

(** [circle.gridY += spacesToMove] *)
Definition fall (spacesToMove : Z) (c : circle) : circle :=
  Circle (color c) (gridX c) (gridY c + spacesToMove) (active c).

(** [circle.destroy()], as far as the scene can observe it. *)
Definition destroy (c : circle) : circle :=
  Circle (color c) (gridX c) (gridY c) false.

(** [destroy()] on each circle of an array, in order. *)
Definition destroyAll (cs : list nat) (h : store) : store :=
  foldl (λ h c, <[c := destroy (h c)]> h) h cs.

(** [arr[i]] for an integer index: [undefined] outside the array. *)
Definition index {A} (arr : list A) (i : Z) : option A :=
  if i <? 0 then None else arr !! Z.to_nat i.

(** [arr.includes(x)] on an array of references. *)
Definition includes (arr : list nat) (x : nat) : bool :=
  existsb (Nat.eqb x) arr.

(** ** The shrink animation

    [clearAllSelectedCircles] starts one shrink tween per cleared circle.
    The completion callbacks of one call share the closure variables
    [completedTweens] and [columnsToAdjust]; [targets] are the circles whose
    tween has not completed yet, in the order the tweens were started. *)
Record shrinkBatch := ShrinkBatch {
  completedTweens : nat;
  columnsToAdjust : list Z;
  targets : list nat
}.

(** What [MenuManager.createMenu] was last asked to show. *)
Inductive menuText :=
| TitleMenu
| EndOfRoundMenu (lastScore high : Z).

(** ** The scene *)

Record scene := Scene {
  heap : store;
  nextId : nat;
  board : list (list nat);
  selectedCircles : list nat;
  allSimilarColorCircles : option (list nat);
  loopCreated : bool;
  boardRefillHappening : bool;
  gameIsRunning : bool;
  score : Z;
  highScore : Z;
  currentPointsToAdd : Z;
  pointerBodyEnabled : bool;
  menu : option menuText;
  shrinkTweens : list shrinkBatch
}.

Definition set_heap (v : store) (s : scene) : scene :=
  let '(Scene _ n b sel sim lp rf run sc hs cp pe m tw) := s in
  Scene v n b sel sim lp rf run sc hs cp pe m tw.
Definition set_nextId (v : nat) (s : scene) : scene :=
  let '(Scene h _ b sel sim lp rf run sc hs cp pe m tw) := s in
  Scene h v b sel sim lp rf run sc hs cp pe m tw.
Definition set_board (v : list (list nat)) (s : scene) : scene :=
  let '(Scene h n _ sel sim lp rf run sc hs cp pe m tw) := s in
  Scene h n v sel sim lp rf run sc hs cp pe m tw.
Definition set_selectedCircles (v : list nat) (s : scene) : scene :=
  let '(Scene h n b _ sim lp rf run sc hs cp pe m tw) := s in
  Scene h n b v sim lp rf run sc hs cp pe m tw.
Definition set_allSimilarColorCircles (v : option (list nat)) (s : scene) : scene :=
  let '(Scene h n b sel _ lp rf run sc hs cp pe m tw) := s in
  Scene h n b sel v lp rf run sc hs cp pe m tw.
Definition set_loopCreated (v : bool) (s : scene) : scene :=
  let '(Scene h n b sel sim _ rf run sc hs cp pe m tw) := s in
  Scene h n b sel sim v rf run sc hs cp pe m tw.
Definition set_boardRefillHappening (v : bool) (s : scene) : scene :=
  let '(Scene h n b sel sim lp _ run sc hs cp pe m tw) := s in
  Scene h n b sel sim lp v run sc hs cp pe m tw.
Definition set_gameIsRunning (v : bool) (s : scene) : scene :=
  let '(Scene h n b sel sim lp rf _ sc hs cp pe m tw) := s in
  Scene h n b sel sim lp rf v sc hs cp pe m tw.
Definition set_score (v : Z) (s : scene) : scene :=
  let '(Scene h n b sel sim lp rf run _ hs cp pe m tw) := s in
  Scene h n b sel sim lp rf run v hs cp pe m tw.
Definition set_highScore (v : Z) (s : scene) : scene :=
  let '(Scene h n b sel sim lp rf run sc _ cp pe m tw) := s in
  Scene h n b sel sim lp rf run sc v cp pe m tw.
Definition set_currentPointsToAdd (v : Z) (s : scene) : scene :=
  let '(Scene h n b sel sim lp rf run sc hs _ pe m tw) := s in
  Scene h n b sel sim lp rf run sc hs v pe m tw.
Definition set_pointerBodyEnabled (v : bool) (s : scene) : scene :=
  let '(Scene h n b sel sim lp rf run sc hs cp _ m tw) := s in
  Scene h n b sel sim lp rf run sc hs cp v m tw.
Definition set_menu (v : option menuText) (s : scene) : scene :=
  let '(Scene h n b sel sim lp rf run sc hs cp pe _ tw) := s in
  Scene h n b sel sim lp rf run sc hs cp pe v tw.
Definition set_shrinkTweens (v : list shrinkBatch) (s : scene) : scene :=
  let '(Scene h n b sel sim lp rf run sc hs cp pe m _) := s in
  Scene h n b sel sim lp rf run sc hs cp pe m v.

(** ** Configuration

    [constants/constants.js] is not part of the sources at hand: the grid
    size and the two neighbour-offset tables are taken as parameters.  [pick]
    stands for the seeded generator behind [Phaser.Math.RND.pick]: the colour
    drawn for the [n]-th circle ever created ([createNewCircle] is the only
    place that draws). *)
Class Constants := {
  GRID_WIDTH : nat;
  GRID_HEIGHT : nat;
  ADJACENT_CIRCLE_OFFSETS_RIGHT_LEANING : list (Z * Z);
  ADJACENT_CIRCLE_OFFSETS_LEFT_LEANING : list (Z * Z);
  pick : nat → Z
}.

Section MainScene.
Context {K : Constants}.

(** ** Chain selection *)

(** [offsets.some(coord => coord[0] === xOffset && coord[1] === yOffset)] *)
Definition someOffset (offsets : list (Z * Z)) (xOffset yOffset : Z) : bool :=
  existsb (λ coord, (coord.1 =? xOffset) && (coord.2 =? yOffset)) offsets.

(** The adjacency test of [isValidNextCircle], between the records of the
    last circle of the chain and of the candidate.  JavaScript's [%] takes
    the sign of the dividend, as [Z.rem] does. *)
Definition isValidAdjacentCircle (lastCircle cand : circle) : bool :=
  let xOffset := gridX cand - gridX lastCircle in
  let yOffset := gridY cand - gridY lastCircle in
  if Z.rem (gridY lastCircle) 2 =? 0
  then someOffset ADJACENT_CIRCLE_OFFSETS_RIGHT_LEANING xOffset yOffset
  else someOffset ADJACENT_CIRCLE_OFFSETS_LEFT_LEANING xOffset yOffset.

Definition isValidNextCircle (s : scene) (c : nat) : bool :=
  match last (selectedCircles s) with
  | None => true
  | Some lastCircle =>
      isValidAdjacentCircle (heap s lastCircle) (heap s c)
      && (color (heap s lastCircle) =? color (heap s c))
  end.

Definition isBackTracking (s : scene) (c : nat) : bool :=
  if (Z.of_nat (length (selectedCircles s)) <=? 0) then false
  else
    match index (selectedCircles s) (Z.of_nat (length (selectedCircles s)) - 2) with
    | Some c' => Nat.eqb c' c
    | None => false
    end.

Definition updatePointsToBeAdded (pointsToAdd : Z) (s : scene) : scene :=
  set_currentPointsToAdd (currentPointsToAdd s + pointsToAdd) s.

Definition resetPointsToBeAdded (s : scene) : scene :=
  set_currentPointsToAdd 0 s.

Definition addPoints (pointsToAdd : Z) (s : scene) : scene :=
  set_score (score s + pointsToAdd) s.

Definition addCircleToSelectedChain (c : nat) (s : scene) : scene :=
  updatePointsToBeAdded 1 (set_selectedCircles (selectedCircles s ++ [c]) s).

(** [pop()] on an empty array yields [undefined], and reading its [color]
    throws. *)
Definition removeCircleFromChain (s : scene) : option scene :=
  let s1 := set_loopCreated false s in
  match last (selectedCircles s1) with
  | None => None
  | Some circleToPop =>
      Some (updatePointsToBeAdded (-1)
              (set_selectedCircles (removelast (selectedCircles s1)) s1))
  end.

Definition setAllSimilarColoredCirclesToSelectedCircles (col : Z) (s : scene) : scene :=
  set_allSimilarColorCircles
    (Some (filter (λ c, color (heap s c) = col) (concat (board s)))) s.

Definition handleLoopCreated (c : nat) (s : scene) : scene :=
  let s1 := set_loopCreated true s in
  let s2 := setAllSimilarColoredCirclesToSelectedCircles (color (heap s1 c)) s1 in
  addCircleToSelectedChain c s2.

(** The overlap callback registered by [addOnCollisionHandler]. *)
Definition onOverlap (c : nat) (s : scene) : option scene :=
  if isValidNextCircle s c then
    if isBackTracking s c then removeCircleFromChain s
    else if negb (includes (selectedCircles s) c) && negb (loopCreated s)
         then Some (addCircleToSelectedChain c s)
    else if includes (selectedCircles s) c && negb (loopCreated s)
         then Some (handleLoopCreated c s)
    else Some s
  else Some s.

(** ** Compaction *)

(** [createNewCircle(x, y, gridY)]: a fresh, live circle at column [x] and
    row [gridY]; [y] only places the sprite on screen.  Returns the new
    reference. *)
Definition createNewCircle (x gridY : Z) (s : scene) : nat * scene :=
  let r := nextId s in
  (r, set_nextId (S r) (set_heap (<[r := Circle (pick r) x gridY true]> (heap s)) s)).

(** The body of the loop of [updateBoard] at one index of the column.  The
    loop state is the store, [spacesToMove] and [remainingCircles].  (The
    slot of a dead circle is also set to [null] in the old column array,
    which [addNewCirclesToColumn] then replaces.) *)
Definition scanSlot (curCircle : nat) (st : store * Z * list nat) : store * Z * list nat :=
  let '(h, spacesToMove, remainingCircles) := st in
  let '(h1, spaces1) :=
    if negb (active (h curCircle)) then (h, spacesToMove + 1)
    else if 0 <? spacesToMove
         then (<[curCircle := fall spacesToMove (h curCircle)]> h, spacesToMove)
         else (h, spacesToMove) in
  (h1, spaces1,
   if active (h1 curCircle) then remainingCircles ++ [curCircle] else remainingCircles).

(** [for (i = length - 1; i > -1; i--)]: the column is scanned from its last
    (bottom) slot to its first (top) slot. *)
Definition scanColumn (h : store) (curColumn : list nat) : store * Z * list nat :=
  foldr scanSlot (h, 0, []) curColumn.

(** The [for] loop of [addNewCirclesToColumn], over the rows to fill. *)
Fixpoint createNewCircles (x : Z) (gridYs : list Z) (s : scene) : list nat * scene :=
  match gridYs with
  | [] => ([], s)
  | gridY :: rest =>
      let '(newCircle, s1) := createNewCircle x gridY s in
      let '(newCircles, s2) := createNewCircles x rest s1 in
      (newCircle :: newCircles, s2)
  end.

(** [addNewCirclesToColumn]; it is only called by [updateBoard], with the
    index of an existing column. *)
Definition addNewCirclesToColumn (curColumnIndex : nat) (remainingCircles : list nat)
    (s : scene) : scene :=
  let spacesToMoveDown := Z.of_nat GRID_HEIGHT - Z.of_nat (length remainingCircles) in
  let '(newCircles, s1) :=
    createNewCircles (Z.of_nat curColumnIndex)
      (Z.of_nat <$> seq 0 (Z.to_nat spacesToMoveDown)) s in
  set_boardRefillHappening false
    (set_board (<[curColumnIndex := newCircles ++ reverse remainingCircles]> (board s1)) s1).

(** The body of the [forEach] of [updateBoard] for one column index;
    [this.board[column].length] throws when there is no such column. *)
Definition updateColumn (column : Z) (s : scene) : option scene :=
  match index (board s) column with
  | None => None
  | Some curColumn =>
      let '(h, _, remainingCircles) := scanColumn (heap s) curColumn in
      Some (addNewCirclesToColumn (Z.to_nat column) remainingCircles (set_heap h s))
  end.

Fixpoint updateBoard (columns : list Z) (s : scene) : option scene :=
  match columns with
  | [] => Some s
  | column :: rest =>
      match updateColumn column s with
      | None => None
      | Some s1 => updateBoard rest s1
      end
  end.

(** ** Committing a chain *)

(** The points [clearAllSelectedCircles] passes to [addPoints]. *)
Definition pointsFor (len : Z) : Z :=
  if len >=? 10 then len * 2 else len.

(** [if (!columnsToAdjust.includes(circle.gridX)) columnsToAdjust.push(circle.gridX)] *)
Definition noteColumn (h : store) (cols : list Z) (c : nat) : list Z :=
  if existsb (Z.eqb (gridX (h c))) cols then cols else cols ++ [gridX (h c)].

(** The array [columnsToAdjust] once the [forEach] has gone over [sel]. *)
Definition columnsOf (h : store) (sel : list nat) : list Z :=
  foldl (noteColumn h) [] sel.

(** The array that [clearAllSelectedCircles] clears: the chain or, in a
    loop, the similar-colour array ([undefined] before the first loop). *)
Definition clearSet (s : scene) : option (list nat) :=
  if loopCreated s then allSimilarColorCircles s else Some (selectedCircles s).

(** [clearAllSelectedCircles], up to the start of the shrink tweens.  In a
    loop the chain is replaced by the array [allSimilarColorCircles] itself;
    nothing writes to that array before [selectedCircles] is assigned anew,
    so the model copies it.  Reading [length] of an [undefined] array, or
    [color] of the first element of an empty one, throws. *)
Definition clearAllSelectedCircles (s : scene) : option scene :=
  match clearSet s with
  | None => None
  | Some sel =>
      match head sel with
      | None => None
      | Some _ =>
          let s1 := set_selectedCircles sel s in
          let s2 := set_boardRefillHappening true s1 in
          let s3 := set_loopCreated false s2 in
          let s4 := resetPointsToBeAdded s3 in
          let s5 := addPoints (pointsFor (Z.of_nat (length (selectedCircles s4)))) s4 in
          let cols := columnsOf (heap s5) (selectedCircles s5) in
          Some (set_shrinkTweens
                  (shrinkTweens s5 ++ [ShrinkBatch 0 cols (selectedCircles s5)]) s5)
      end
  end.

(** The [onComplete] callback of the next shrink tween of batch [k]: the
    circle is destroyed, [completedTweens] is incremented and compared with
    the current length of the chain. *)
Definition onShrinkComplete (k : nat) (s : scene) : option scene :=
  match shrinkTweens s !! k with
  | Some (ShrinkBatch done cols (c :: rest)) =>
      let s1 := set_heap (<[c := destroy (heap s c)]> (heap s)) s in
      let s2 := set_shrinkTweens (<[k := ShrinkBatch (S done) cols rest]> (shrinkTweens s1)) s1 in
      if Nat.eqb (S done) (length (selectedCircles s2)) then
        match updateBoard cols s2 with
        | None => None
        | Some s3 => Some (set_selectedCircles [] s3)
        end
      else Some s2
  | _ => Some s
  end.

(** All tweens of a batch have the same duration and complete, in the order
    they were started, within one frame. *)
Fixpoint runShrinkTweens (n k : nat) (s : scene) : option scene :=
  match n with
  | O => Some s
  | S n' =>
      match onShrinkComplete k s with
      | None => None
      | Some s1 => runShrinkTweens n' k s1
      end
  end.

(** ** Pointer handlers *)

Definition onPointerDown (s : scene) : scene :=
  if gameIsRunning s then
    if negb (boardRefillHappening s) then set_pointerBodyEnabled true s else s
  else s.

Definition onPointerUp (s : scene) : option scene :=
  if gameIsRunning s then
    let s1 := set_pointerBodyEnabled false s in
    let s2 := if Nat.eqb (length (selectedCircles s1)) 1
              then set_selectedCircles [] s1 else s1 in
    if (1 <? length (selectedCircles s2))%nat then clearAllSelectedCircles s2
    else Some s2
  else Some s.

(** ** Round controller *)

Definition initializeGameVariables (s : scene) : scene :=
  set_boardRefillHappening false
    (set_loopCreated false
       (set_currentPointsToAdd 0
          (set_score 0 (set_selectedCircles [] s)))).

Definition clearBoard (s : scene) : scene :=
  let h := destroyAll (concat (board s)) (heap s) in
  set_selectedCircles [] (set_board [] (set_heap h s)).

Definition clearPreviousGame (s : scene) : scene := clearBoard s.

(** [board[x].push(createNewCircle(x, y, y))] for one cell. *)
Definition createCell (y : nat) (st : list (list nat) * scene) (x : nat)
    : list (list nat) * scene :=
  let '(b, s) := st in
  let '(c, s1) := createNewCircle (Z.of_nat x) (Z.of_nat y) s in
  (alter (λ col, col ++ [c]) x b, s1).

Definition createInitialBoard (s : scene) : scene :=
  let '(b, s1) :=
    foldl (λ st y, foldl (createCell y) st (seq 0 GRID_WIDTH))
          (replicate GRID_WIDTH [], s) (seq 0 GRID_HEIGHT) in
  set_board b s1.

Definition startTimer (s : scene) : scene := set_gameIsRunning true s.

Definition startGame (s : scene) : scene :=
  createInitialBoard (startTimer (initializeGameVariables s)).

Definition onCountdownComplete (s : scene) : scene :=
  let s1 := clearPreviousGame (set_gameIsRunning false s) in
  let s2 := if score s1 >? highScore s1 then set_highScore (score s1) s1 else s1 in
  set_menu (Some (EndOfRoundMenu (score s2) (highScore s2))) s2.

(** [create()]: the scene before any round.  A new physics body is enabled. *)
Definition create : scene :=
  let s0 := Scene (λ _, blank) 0 [] [] None false false false 0 0 0 true None [] in
  set_menu (Some TitleMenu) (initializeGameVariables (set_highScore 0 s0)).

(** The start button of a menu: [startGame()], then the menu is removed. *)
Definition onStartButton (s : scene) : scene :=
  set_menu None (startGame s).

(** ** Events

    The host serialises its callbacks; each event runs one handler to
    completion.  An overlap is only reported while the pointer body is
    enabled. *)
Inductive event :=
| Overlap (c : nat)
| PointerDown
| PointerUp
| ShrinkTweenComplete (k : nat)
| CountdownComplete
| StartButton.

Definition step (e : event) (s : scene) : option scene :=
  match e with
  | Overlap c => if pointerBodyEnabled s then onOverlap c s else Some s
  | PointerDown => Some (onPointerDown s)
  | PointerUp => onPointerUp s
  | ShrinkTweenComplete k => onShrinkComplete k s
  | CountdownComplete => Some (onCountdownComplete s)
  | StartButton => Some (onStartButton s)
  end.

(** A sequence of events, stopping at the first exception. *)
Fixpoint run (es : list event) (s : scene) : option scene :=
  match es with
  | [] => Some s
  | e :: rest =>
      match step e s with
      | None => None
      | Some s1 => run rest s1
      end
  end.

(** A sequence of overlap callbacks, stopping at the first exception. *)
Fixpoint touches (cs : list nat) (s : scene) : option scene :=
  match cs with
  | [] => Some s
  | c :: rest =>
      match onOverlap c s with
      | None => None
      | Some s1 => touches rest s1
      end
  end.

End MainScene.

(** ** The game state display

    [GameStateDisplayManager] keeps three text objects; the model records the
    text of two of them, the preview of the points about to be added and the
    score board.  The colour and the horizontal position of a text only style
    it and are left out, as is the countdown text, which renders a time.  A
    handler is followed on a pair of a scene and a display; the scene part of
    what it returns is what the handler on scenes returns. *)

Record display := Display {
  pointsToBeAddedText : string;
  scoreBoardText : string
}.

(** The texts as the constructor of the manager leaves them. *)
Definition newDisplay : display := Display "" "".

(** The template [`+ ${circlesInChain}${circlesInChain >= 10 ? " X2!" : "!"}`];
    an integer is rendered in decimal. *)
Definition previewText (circlesInChain : Z) : string :=
  "+ " +:+ pretty circlesInChain +:+ (if circlesInChain >=? 10 then " X2!" else "!").

(** [setPointsToBeAddedText(circlesInChain, color)].  The test
    [allSimilarColorCircles !== null] also passes for [undefined], whose
    [length] then throws. *)
Definition setPointsToBeAddedText (circlesInChain : Z) (s : scene) (d : display)
    : option display :=
  if circlesInChain <=? 1 then Some (Display "" (scoreBoardText d))
  else if loopCreated s then
    match allSimilarColorCircles s with
    | None => None
    | Some sim =>
        Some (Display (previewText (Z.of_nat (length sim))) (scoreBoardText d))
    end
  else Some (Display (previewText circlesInChain) (scoreBoardText d)).

(** [setScoreBoardText(text)], [text] being a number or [null]. *)
Definition setScoreBoardText (text : option Z) (d : display) : display :=
  Display (pointsToBeAddedText d)
    (match text with
     | Some n => "Score: " +:+ pretty n
     | None => ""
     end).

(** [clearAllText()], on the two texts of the model. *)
Definition clearAllText (s : scene) (d : display) : option display :=
  setPointsToBeAddedText 0 s (setScoreBoardText None d).

Section Shown.
Context {K : Constants}.

(** [updatePointsToBeAdded], with its call of [setPointsToBeAddedText]. *)
Definition updatePointsToBeAddedShown (pointsToAdd : Z) (g : scene * display)
    : option (scene * display) :=
  let s1 := updatePointsToBeAdded pointsToAdd g.1 in
  match setPointsToBeAddedText (currentPointsToAdd s1) s1 g.2 with
  | None => None
  | Some d1 => Some (s1, d1)
  end.

Definition resetPointsToBeAddedShown (g : scene * display) : option (scene * display) :=
  let s1 := resetPointsToBeAdded g.1 in
  match setPointsToBeAddedText 0 s1 g.2 with
  | None => None
  | Some d1 => Some (s1, d1)
  end.

Definition addPointsShown (pointsToAdd : Z) (g : scene * display) : scene * display :=
  let s1 := addPoints pointsToAdd g.1 in
  (s1, setScoreBoardText (Some (score s1)) g.2).

Definition addCircleToSelectedChainShown (c : nat) (g : scene * display)
    : option (scene * display) :=
  updatePointsToBeAddedShown 1
    (set_selectedCircles (selectedCircles g.1 ++ [c]) g.1, g.2).

Definition removeCircleFromChainShown (g : scene * display) : option (scene * display) :=
  let s1 := set_loopCreated false g.1 in
  match last (selectedCircles s1) with
  | None => None
  | Some circleToPop =>
      updatePointsToBeAddedShown (-1)
        (set_selectedCircles (removelast (selectedCircles s1)) s1, g.2)
  end.

Definition handleLoopCreatedShown (c : nat) (g : scene * display)
    : option (scene * display) :=
  let s1 := set_loopCreated true g.1 in
  let s2 := setAllSimilarColoredCirclesToSelectedCircles (color (heap s1 c)) s1 in
  addCircleToSelectedChainShown c (s2, g.2).

Definition onOverlapShown (c : nat) (g : scene * display) : option (scene * display) :=
  if isValidNextCircle g.1 c then
    if isBackTracking g.1 c then removeCircleFromChainShown g
    else if negb (includes (selectedCircles g.1) c) && negb (loopCreated g.1)
         then addCircleToSelectedChainShown c g
    else if includes (selectedCircles g.1) c && negb (loopCreated g.1)
         then handleLoopCreatedShown c g
    else Some g
  else Some g.

Definition clearAllSelectedCirclesShown (g : scene * display) : option (scene * display) :=
  match clearSet g.1 with
  | None => None
  | Some sel =>
      let s1 := set_selectedCircles sel g.1 in
      let s2 := set_boardRefillHappening true s1 in
      let s3 := set_loopCreated false s2 in
      match resetPointsToBeAddedShown (s3, g.2) with
      | None => None
      | Some g4 =>
          match head (selectedCircles g4.1) with
          | None => None
          | Some _ =>
              let g5 := addPointsShown
                          (pointsFor (Z.of_nat (length (selectedCircles g4.1)))) g4 in
              let cols := columnsOf (heap g5.1) (selectedCircles g5.1) in
              Some (set_shrinkTweens
                      (shrinkTweens g5.1 ++ [ShrinkBatch 0 cols (selectedCircles g5.1)])
                      g5.1, g5.2)
          end
      end
  end.

Definition onPointerUpShown (g : scene * display) : option (scene * display) :=
  if gameIsRunning g.1 then
    let s1 := set_pointerBodyEnabled false g.1 in
    let s2 := if Nat.eqb (length (selectedCircles s1)) 1
              then set_selectedCircles [] s1 else s1 in
    if (1 <? length (selectedCircles s2))%nat then clearAllSelectedCirclesShown (s2, g.2)
    else Some (s2, g.2)
  else Some g.

(** [clearPreviousGame]: the board, then the texts. *)
Definition clearPreviousGameShown (g : scene * display) : option (scene * display) :=
  let s1 := clearBoard g.1 in
  match clearAllText s1 g.2 with
  | None => None
  | Some d1 => Some (s1, d1)
  end.

Definition onCountdownCompleteShown (g : scene * display) : option (scene * display) :=
  match clearPreviousGameShown (set_gameIsRunning false g.1, g.2) with
  | None => None
  | Some (s1, d1) =>
      let s2 := if score s1 >? highScore s1 then set_highScore (score s1) s1 else s1 in
      Some (set_menu (Some (EndOfRoundMenu (score s2) (highScore s2))) s2, d1)
  end.

(** [startGame], which shows a score of 0 before it builds the board. *)
Definition startGameShown (g : scene * display) : scene * display :=
  let s1 := startTimer (initializeGameVariables g.1) in
  (createInitialBoard s1, setScoreBoardText (Some 0) g.2).

Definition onStartButtonShown (g : scene * display) : scene * display :=
  let g1 := startGameShown g in (set_menu None g1.1, g1.2).

(** The scene and the display after [create()]. *)
Definition createShown : scene * display := (create, newDisplay).

Definition stepShown (e : event) (g : scene * display) : option (scene * display) :=
  match e with
  | Overlap c => if pointerBodyEnabled g.1 then onOverlapShown c g else Some g
  | PointerDown => Some (onPointerDown g.1, g.2)
  | PointerUp => onPointerUpShown g
  | ShrinkTweenComplete k =>
      match onShrinkComplete k g.1 with
      | None => None
      | Some s1 => Some (s1, g.2)
      end
  | CountdownComplete => onCountdownCompleteShown g
  | StartButton => Some (onStartButtonShown g)
  end.

Fixpoint runShown (es : list event) (g : scene * display) : option (scene * display) :=
  match es with
  | [] => Some g
  | e :: rest =>
      match stepShown e g with
      | None => None
      | Some g1 => runShown rest g1
      end
  end.

Fixpoint touchesShown (cs : list nat) (g : scene * display) : option (scene * display) :=
  match cs with
  | [] => Some g
  | c :: rest =>
      match onOverlapShown c g with
      | None => None
      | Some g1 => touchesShown rest g1
      end
  end.

End Shown.

(** ** Firework emitters

    [VisualEffectsManager] keeps one particle emitter per colour in the
    object [emitters], used as a map from texture keys.  An emitter is
    modelled by the number of emitters created before it; [emissions] records
    the calls of [emitParticleAt], by emitter and circle. *)

Record vfx := Vfx {
  emitters : gmap string nat;
  emitterCount : nat;
  emissions : list (nat * nat)
}.

(** [color.toString(16)] for an integer colour. *)
Definition toString16 (n : Z) : string :=
  NilZero.string_of_int (Z.to_hex_int n).

(** ['circleParticle_' + color.toString(16)] *)
Definition textureKey (color : Z) : string :=
  "circleParticle_" +:+ toString16 color.

(** [getFireworkParticles(color)]: the emitter of the colour, created if the
    map has none under its key. *)
Definition getFireworkParticles (color : Z) (v : vfx) : nat * vfx :=
  match emitters v !! textureKey color with
  | Some e => (e, v)
  | None =>
      let e := emitterCount v in
      (e, Vfx (<[textureKey color := e]> (emitters v)) (S e) (emissions v))
  end.

(** [createFireworkParticles(circle)] *)
Definition createFireworkParticles (h : store) (c : nat) (v : vfx) : vfx :=
  let '(e, v1) := getFireworkParticles (color (h c)) v in
  Vfx (emitters v1) (emitterCount v1) (emissions v1 ++ [(e, c)]).

(** The fireworks of the [forEach] of [clearAllSelectedCircles]: one for
    each circle when the array holds 10 circles or more. *)
Definition commitFireworks (h : store) (sel : list nat) (v : vfx) : vfx :=
  foldl (λ v c, if Z.of_nat (length sel) >=? 10
                then createFireworkParticles h c v else v) v sel.

(** ** A sample configuration

    Modelled from the spec: [constants/constants.js] is missing.  The spec
    (4.1) gives each row six neighbour offsets, one table for even rows and
    one for odd rows; [createNewCircle] draws even rows half a cell to the
    right, which fixes which six.  The examples below run on this
    configuration; the theorems hold for every configuration. *)
Definition staggered (width height : nat) (rnd : nat → Z) : Constants := {|
  GRID_WIDTH := width;
  GRID_HEIGHT := height;
  ADJACENT_CIRCLE_OFFSETS_RIGHT_LEANING :=
    [(0, -1); (1, -1); (-1, 0); (1, 0); (0, 1); (1, 1)];
  ADJACENT_CIRCLE_OFFSETS_LEFT_LEANING :=
    [(-1, -1); (0, -1); (-1, 0); (1, 0); (-1, 1); (0, 1)];
  pick := rnd
|}.

(** A 2 x 2 board just after the start button: circle [0] at (0,0), [1] at
    (1,0), [2] at (0,1), [3] at (1,1); circle [2] has colour 9, the others
    colour 7.  Circles [0], [1] and [3] are pairwise adjacent. *)
Definition demo2x2 : Constants := staggered 2 2 (λ n, if Nat.eqb n 2 then 9 else 7).
Definition round2x2 : scene := onStartButton (K := demo2x2) create.

(** The chain 0, 1, 3 on that board, and the loop closed by touching 0
    again. *)
Definition triangle : scene :=
  addCircleToSelectedChain 3
    (addCircleToSelectedChain 1 (addCircleToSelectedChain 0 round2x2)).
Definition looped : scene := handleLoopCreated 0 triangle.

(** The same board after a first touch, of circle 0. *)
Definition oneTouched : scene := addCircleToSelectedChain 0 round2x2.

(** A single column of height 5, colours A A B A A from the top, in which the
    circles of rows 1 and 3 have been destroyed. *)
Definition column5 : Constants := staggered 1 5 (λ n, if Nat.eqb n 2 then 2 else 1).
Definition twoCleared : scene :=
  let s := onStartButton (K := column5) create in
  set_heap (destroyAll [1; 3]%nat (heap s)) s.

(** A short play on the 2 x 2 board: a round is started, the chain 0, 1, 3
    is drawn and released, and its three shrink tweens complete. *)
Definition demoEvents : list event :=
  [StartButton; PointerDown; Overlap 0; Overlap 1; Overlap 3; PointerUp;
   ShrinkTweenComplete 0; ShrinkTweenComplete 0; ShrinkTweenComplete 0].
Definition demoPlayed : scene :=
  default create (run (K := demo2x2) demoEvents create).

(** The chain 0, 1 on the 2 x 2 board; the scene a release of the chain
    0, 1, 3 leaves; and the scene after the chain of one circle is
    released. *)
Definition twoTouched : scene :=
  addCircleToSelectedChain 1 (addCircleToSelectedChain 0 round2x2).
Definition released : scene := default triangle (onPointerUp triangle).

(** The column of height 5 once compacted. *)
Definition compacted5 : scene :=
  default twoCleared (updateColumn (K := column5) 0 twoCleared).

(** The play [demoEvents], followed with the display. *)
Definition demoShown : scene * display :=
  default createShown (runShown (K := demo2x2) demoEvents createShown).

(** No emitter yet, as the constructor of the manager leaves the map. *)
Definition noEmitters : vfx := Vfx ∅ 0 [].

(** ** Vocabulary of the properties *)

(** The rule [isValidNextCircle] checks between the tail [a] of the chain and
    a candidate [b]. *)
Definition linked {K : Constants} (h : store) (a b : nat) : Prop :=
  isValidAdjacentCircle (h a) (h b) = true ∧ color (h a) = color (h b).

Definition chainOk {K : Constants} (h : store) (l : list nat) : Prop :=
  ∀ i a b, l !! i = Some a → l !! S i = Some b → linked h a b.

(** The two offset tables are mutually inverse: if [b] is a neighbour of [a]
    then [a] is a neighbour of [b]. *)
Definition mutuallyInverse {K : Constants} : Prop :=
  ∀ a b : circle, isValidAdjacentCircle a b = true → isValidAdjacentCircle b a = true.

(** The circles of a column that are live in store [h], top to bottom. *)
Definition survivors (h : store) (col : list nat) : list nat :=
  filter (λ c, active (h c) = true) col.

(** The number of destroyed circles in (a part of) a column. *)
Definition deadCount (h : store) (col : list nat) : nat :=
  length (filter (λ c, active (h c) = false) col).

(** The number of destroyed circles below slot [i] of a column. *)
Definition deadBelow (h : store) (col : list nat) (i : nat) : nat :=
  deadCount h (drop (S i) col).

(** The store after the creation loop of [addNewCirclesToColumn], the first
    new circle getting reference [r]. *)
Fixpoint spawned {K : Constants} (x : Z) (gridYs : list Z) (r : nat) (h : store) : store :=
  match gridYs with
  | [] => h
  | gridY :: rest => spawned x rest (S r) (<[r := Circle (pick r) x gridY true]> h)
  end.

(** Every column of the board is full and holds distinct, allocated
    circles. *)
Definition wfBoard {K : Constants} (s : scene) : Prop :=
  ∀ col, col ∈ board s →
    length col = GRID_HEIGHT ∧ NoDup col ∧ ∀ c, c ∈ col → (c < nextId s)%nat.

(** The fields that neither the creation of circles nor compaction touches. *)
Definition sameControl (s s' : scene) : Prop :=
  selectedCircles s' = selectedCircles s ∧
  allSimilarColorCircles s' = allSimilarColorCircles s ∧
  loopCreated s' = loopCreated s ∧
  gameIsRunning s' = gameIsRunning s ∧
  score s' = score s ∧
  highScore s' = highScore s ∧
  currentPointsToAdd s' = currentPointsToAdd s ∧
  pointerBodyEnabled s' = pointerBodyEnabled s ∧
  menu s' = menu s ∧
  shrinkTweens s' = shrinkTweens s.

(** While a loop is open, the chain has at least two entries and the
    similar-colour array holds the circles of the board that have the colour
    of the tail of the chain, which is itself on the board. *)
Definition loopInv (s : scene) : Prop :=
  loopCreated s = true →
  (1 < length (selectedCircles s))%nat ∧
  ∃ c, last (selectedCircles s) = Some c ∧ c ∈ concat (board s) ∧
       allSimilarColorCircles s =
         Some (filter (λ x, color (heap s x) = color (heap s c)) (concat (board s))).

(** The scene once every pending tween of batch [b], the [k]-th batch, has
    destroyed its circle, before the last callback looks at the chain. *)
Definition shrunk (k : nat) (b : shrinkBatch) (s : scene) : scene :=
  set_shrinkTweens
    (<[k := ShrinkBatch (completedTweens b + length (targets b)) (columnsToAdjust b) []]>
       (shrinkTweens s))
    (set_heap (destroyAll (targets b) (heap s)) s).

(** The points the spec (4.4) gives a committed chain of length [len]. *)
Definition specPoints (len : Z) : Z :=
  if len <? 10 then len else len * 2.

(** The circle in slot [i] of column [x] of the board is allocated and
    records that position. *)
Definition wfGrid (s : scene) : Prop :=
  ∀ x col i c, board s !! x = Some col → col !! i = Some c →
    (c < nextId s)%nat ∧
    gridX (heap s c) = Z.of_nat x ∧ gridY (heap s c) = Z.of_nat i.

(** No offset table lists a circle as its own neighbour. *)
Definition noSelfOffset {K : Constants} : Prop :=
  someOffset ADJACENT_CIRCLE_OFFSETS_RIGHT_LEANING 0 0 = false ∧
  someOffset ADJACENT_CIRCLE_OFFSETS_LEFT_LEANING 0 0 = false.

(** The events a pointer that is down can cause: a press and overlaps. *)
Definition pointerOnly (e : event) : bool :=
  match e with
  | PointerDown | Overlap _ => true
  | _ => false
  end.

(** What the numbers and the two gates of a scene satisfy, whatever was
    played. *)
Definition countersOk (s : scene) : Prop :=
  0 ≤ score s ∧ 0 ≤ highScore s ∧ 0 ≤ currentPointsToAdd s ∧
  (boardRefillHappening s = true → pointerBodyEnabled s = false) ∧
  (boardRefillHappening s = false →
     Z.of_nat (length (selectedCircles s)) ≤ currentPointsToAdd s) ∧
  (gameIsRunning s = false → score s ≤ highScore s).

(** The preview text is what [setPointsToBeAddedText] would write for the
    current value of the counter. *)
Definition previewShown (g : scene * display) : Prop :=
  setPointsToBeAddedText (currentPointsToAdd g.1) g.1 g.2 = Some g.2.

(** The score board shows the score during a round and is blank between
    rounds. *)
Definition scoreShown (g : scene * display) : Prop :=
  scoreBoardText g.2
  = if gameIsRunning g.1 then "Score: " +:+ pretty (score g.1) else "".

(** The emitters of the map are distinct and were all created. *)
Definition vfxOk (v : vfx) : Prop :=
  ∀ k e, emitters v !! k = Some e →
    (e < emitterCount v)%nat ∧ ∀ k', emitters v !! k' = Some e → k' = k.

(** ** Proofs *)

(** ** Properties of the chain *)

Lemma elem_of_concat {A} (x : A) (ls : list (list A)) :
  x ∈ concat ls ↔ ∃ l, l ∈ ls ∧ x ∈ l.
Proof.
  rewrite list_elem_of_In, in_concat.
  split; intros (l & H1 & H2); exists l.
  - by rewrite !list_elem_of_In.
  - by rewrite <- !list_elem_of_In.
Qed.

Section ChainProperties.
Context {K : Constants}.

Lemma chainOk_nil h : chainOk h [].
Proof. intros i a b Ha; by rewrite lookup_nil in Ha. Qed.

Lemma chainOk_snoc h l c :
  chainOk h l → (∀ a, last l = Some a → linked h a c) → chainOk h (l ++ [c]).
Proof.
  intros Hl Hc i a b Ha Hb.
  destruct (decide (S i < length l)%nat) as [Hlt|Hge].
  - rewrite lookup_app_l in Ha by lia. rewrite lookup_app_l in Hb by lia. eauto.
  - assert (Hlen : (S i < length (l ++ [c]))%nat) by (eapply lookup_lt_Some; eauto).
    rewrite length_app in Hlen; simpl in Hlen.
    assert (S i = length l) as Hi by lia.
    rewrite lookup_app_r in Hb by lia.
    replace (S i - length l)%nat with 0%nat in Hb by lia. simpl in Hb.
    injection Hb as <-.
    rewrite lookup_app_l in Ha by lia.
    apply Hc. rewrite last_lookup. by replace (pred (length l)) with i by lia.
Qed.

Lemma chainOk_prefix h l t : chainOk h (l ++ [t]) → chainOk h l.
Proof.
  intros Hl i a b Ha Hb. apply (Hl i).
  - by apply lookup_app_l_Some.
  - by apply lookup_app_l_Some.
Qed.

Lemma second_to_last_snoc (l : list nat) c :
  (if Z.of_nat (length l) <=? 0 then false
   else match index l (Z.of_nat (length l) - 2) with
        | Some c' => Nat.eqb c' c
        | None => false
        end) = true →
  ∃ l0 t, l = l0 ++ [t] ∧ last l0 = Some c.
Proof.
  unfold index.
  destruct l as [|x l _] using rev_ind; [done|].
  rewrite length_app; simpl.
  destruct (_ <=? 0) eqn:E; [done|].
  destruct (_ <? 0) eqn:E2; [done|].
  apply Z.ltb_ge in E2.
  replace (Z.to_nat (Z.of_nat (length l + 1) - 2)) with (pred (length l)) by lia.
  destruct l as [|y l' _] using rev_ind; [simpl in *; lia|].
  intros Hbt. exists (l' ++ [y]), x. split; [done|].
  rewrite last_snoc.
  rewrite length_app in Hbt; simpl in Hbt.
  replace (pred (length l' + 1)) with (length l') in Hbt by lia.
  rewrite <- (assoc_L (++)) in Hbt.
  rewrite lookup_app_r in Hbt by lia.
  replace (length l' - length l')%nat with 0%nat in Hbt by lia. simpl in Hbt.
  apply Nat.eqb_eq in Hbt. by subst.
Qed.

Lemma isBackTracking_snoc s c :
  isBackTracking s c = true →
  ∃ l0 t, selectedCircles s = l0 ++ [t] ∧ last l0 = Some c.
Proof. apply second_to_last_snoc. Qed.

(** One overlap callback never throws, leaves the store and the board alone,
    and keeps the chain linked. *)
Lemma onOverlap_chainOk s c :
  ∃ s', onOverlap c s = Some s' ∧ heap s' = heap s ∧ board s' = board s ∧
        (chainOk (heap s) (selectedCircles s) →
         chainOk (heap s') (selectedCircles s')).
Proof.
  unfold onOverlap.
  destruct (isValidNextCircle s c) eqn:Hv; [|by eauto].
  destruct (isBackTracking s c) eqn:Hb.
  - apply isBackTracking_snoc in Hb as (l0 & t & Hsel & _).
    unfold removeCircleFromChain.
    destruct s; simpl in *; subst.
    rewrite last_snoc, removelast_last. eexists; split; [done|]. simpl.
    eauto using chainOk_prefix.
  - assert (Hlink : ∀ a, last (selectedCircles s) = Some a → linked (heap s) a c).
    { intros a Ha. unfold isValidNextCircle in Hv. rewrite Ha in Hv.
      apply andb_true_iff in Hv as [? ?%Z.eqb_eq]. by split. }
    destruct (negb (includes _ _) && negb _).
    { eexists; split; [done|]. destruct s; simpl in *. eauto using chainOk_snoc. }
    destruct (includes _ _ && negb _).
    { eexists; split; [done|]. destruct s; simpl in *. eauto using chainOk_snoc. }
    eauto.
Qed.

Lemma touches_chainOk cs : ∀ s,
  chainOk (heap s) (selectedCircles s) →
  ∃ s', touches cs s = Some s' ∧ heap s' = heap s ∧ board s' = board s ∧
        chainOk (heap s') (selectedCircles s').
Proof.
  induction cs as [|c cs IH]; intros s Hs; simpl; [by eauto|].
  destruct (onOverlap_chainOk s c) as (s1 & -> & Hh & Hb & Hok).
  destruct (IH s1 (Hok Hs)) as (s' & -> & Hh' & Hb' & Hok').
  exists s'. split; [done|]. split; [congruence|]. split; [congruence|done].
Qed.


Lemma isBackTracking_intro s l0 t c :
  selectedCircles s = l0 ++ [t] → last l0 = Some c → isBackTracking s c = true.
Proof.
  intros Hsel Hlast. unfold isBackTracking, index. rewrite Hsel.
  destruct l0 as [|y l' _] using rev_ind; [done|].
  rewrite last_snoc in Hlast. injection Hlast as ->.
  rewrite !length_app; simpl.
  rewrite (proj2 (Z.leb_gt _ _)) by lia.
  rewrite (proj2 (Z.ltb_ge _ _)) by lia.
  replace (Z.to_nat (Z.of_nat (length l' + 1 + 1) - 2)) with (length l') by lia.
  rewrite <- (assoc_L (++)), lookup_app_r by lia.
  replace (length l' - length l')%nat with 0%nat by lia. simpl.
  apply Nat.eqb_refl.
Qed.

(** The backtrack branch of the callback, for a candidate that passes
    [isValidNextCircle]. *)
Lemma onOverlap_backtrack s l0 t c :
  selectedCircles s = l0 ++ [t] →
  last l0 = Some c →
  isValidNextCircle s c = true →
  onOverlap c s =
    Some (updatePointsToBeAdded (-1) (set_selectedCircles l0 (set_loopCreated false s))).
Proof.
  intros Hsel Hlast Hv. unfold onOverlap.
  rewrite Hv, (isBackTracking_intro s l0 t c Hsel Hlast).
  unfold removeCircleFromChain. destruct s; simpl in *; subst.
  by rewrite last_snoc, removelast_last.
Qed.

(** Claim C4, as amended.  In a linked chain of at least two circles, on a
    grid whose offset tables are mutually inverse, touching the
    second-to-last circle pops the tail: the chain is one shorter and is
    exactly the chain the tail was appended to, and the preview counter goes
    down by one.  This holds in the looped state too, and the pop leaves the
    selector not looped. *)
Theorem backtrack_pops (s : scene) (l0 : list nat) (t c : nat) :
  mutuallyInverse →
  chainOk (heap s) (selectedCircles s) →
  selectedCircles s = l0 ++ [t] →
  last l0 = Some c →
  ∃ s', onOverlap c s = Some s' ∧
        selectedCircles s' = l0 ∧
        length (selectedCircles s) = S (length (selectedCircles s')) ∧
        loopCreated s' = false ∧
        currentPointsToAdd s' = currentPointsToAdd s - 1 ∧
        heap s' = heap s ∧ board s' = board s ∧ score s' = score s.
Proof.
  intros Hinv Hok Hsel Hlast.
  assert (Hv : isValidNextCircle s c = true).
  { unfold isValidNextCircle. rewrite Hsel, last_snoc.
    destruct (Hok (pred (length l0)) c t) as [Hadj Hcol].
    - rewrite Hsel. apply lookup_app_l_Some. by rewrite <- last_lookup.
    - rewrite Hsel. destruct l0 as [|y l' _] using rev_ind; [done|].
      rewrite length_app; simpl.
      replace (S (pred (length l' + 1))) with (length (l' ++ [y])) by (rewrite length_app; simpl; lia).
      by rewrite lookup_app_r, Nat.sub_diag.
    - rewrite (Hinv _ _ Hadj), Hcol. simpl. apply Z.eqb_refl. }
  rewrite (onOverlap_backtrack s l0 t c Hsel Hlast Hv).
  eexists; split; [done|].
  destruct s; simpl in *; subst. rewrite length_app; simpl.
  repeat split; lia.
Qed.

(** Claim C5.  A candidate that passes [isValidNextCircle], is already in the
    chain, is not the second-to-last circle, while no loop is open: the loop
    flag is set, the similar-colour set becomes the circles of the whole
    board that have the candidate's colour, and the candidate is appended to
    the chain once more. *)
Theorem loop_closure (s : scene) (c : nat) :
  isValidNextCircle s c = true →
  includes (selectedCircles s) c = true →
  isBackTracking s c = false →
  loopCreated s = false →
  ∃ s', onOverlap c s = Some s' ∧
        loopCreated s' = true ∧
        allSimilarColorCircles s' =
          Some (filter (λ x, color (heap s x) = color (heap s c)) (concat (board s))) ∧
        (∀ x sim, allSimilarColorCircles s' = Some sim →
           x ∈ sim ↔ (∃ col, col ∈ board s ∧ x ∈ col) ∧ color (heap s x) = color (heap s c)) ∧
        selectedCircles s' = selectedCircles s ++ [c] ∧
        currentPointsToAdd s' = currentPointsToAdd s + 1 ∧
        heap s' = heap s ∧ board s' = board s.
Proof.
  intros Hv Hin Hbt Hloop. unfold onOverlap. rewrite Hv, Hbt, Hin, Hloop. simpl.
  eexists; split; [done|].
  destruct s; simpl in *.
  do 2 (split; [done|]). split; [|done].
  intros x sim [= <-]. rewrite list_elem_of_filter, elem_of_concat. tauto.
Qed.

End ChainProperties.

(** ** Properties of the compactor *)

Section CompactorProperties.
Context {K : Constants}.

Lemma survivors_deadCount h col :
  (length (survivors h col) + deadCount h col = length col)%nat.
Proof.
  unfold survivors, deadCount. induction col as [|x tl IH]; [done|].
  rewrite !filter_cons. destruct (active (h x)); simpl;
    repeat case_decide; try done; simpl; lia.
Qed.

Lemma scanColumn_spec h col :
  ∃ h', scanColumn h col = (h', Z.of_nat (deadCount h col), reverse (survivors h col)) ∧
        (∀ c, active (h' c) = active (h c) ∧ color (h' c) = color (h c) ∧
              gridX (h' c) = gridX (h c)) ∧
        (∀ c, c ∉ col → h' c = h c) ∧
        (NoDup col → ∀ i c, col !! i = Some c → active (h c) = true →
           gridY (h' c) = gridY (h c) + Z.of_nat (deadBelow h col i)).
Proof.
  induction col as [|x tl IH].
  - exists h. do 3 (split; [done|]). intros _ i c Hi. by rewrite lookup_nil in Hi.
  - destruct IH as (h1 & Heq & Hattr & Hout & Hfall).
    unfold scanColumn in *. simpl. rewrite Heq. unfold scanSlot.
    destruct (Hattr x) as (Hact & Hcol & Hgx).
    unfold survivors, deadCount, deadBelow in *. rewrite !filter_cons.
    rewrite Hact. destruct (active (h x)) eqn:Hx; simpl.
    + repeat case_decide; try done.
      set (sp := Z.of_nat (length (filter (λ c, active (h c) = false) tl))) in *.
      exists (if 0 <? sp then <[x := fall sp (h1 x)]> h1 else h1).
      split; [|split; [|split]].
      * rewrite reverse_cons.
        destruct (0 <? sp); cbv beta iota zeta;
          [rewrite fn_lookup_insert; simpl|]; by rewrite Hact.
      * intros c. destruct (0 <? sp); [|done].
        destruct (decide (x = c)) as [<-|Hne].
        -- rewrite !fn_lookup_insert. simpl. by rewrite Hact, Hx.
        -- by rewrite !fn_lookup_insert_ne.
      * intros c Hc. apply not_elem_of_cons in Hc as [Hne Hc].
        destruct (0 <? sp); [rewrite fn_lookup_insert_ne by done|]; auto.
      * intros Hnd i c Hi Hc. apply NoDup_cons in Hnd as [Hx' Hnd].
        destruct i as [|i]; simpl in Hi.
        -- injection Hi as <-. simpl. rewrite drop_0. fold sp.
           destruct (0 <? sp) eqn:Hsp.
           ++ rewrite fn_lookup_insert. simpl. by rewrite (Hout x Hx').
           ++ apply Z.ltb_ge in Hsp. rewrite (Hout x Hx').
              unfold deadCount. subst sp. lia.
        -- assert (x ≠ c) by (intros ->; apply Hx'; by eapply list_elem_of_lookup_2).
           simpl. rewrite <- (Hfall Hnd i c Hi Hc).
           destruct (0 <? sp); [by rewrite fn_lookup_insert_ne|done].
    + repeat case_decide; try done.
      exists h1. split; [|split; [|split]].
      * simpl. rewrite Hact. do 2 f_equal. lia.
      * done.
      * intros c Hc. apply not_elem_of_cons in Hc as [_ Hc]. auto.
      * intros Hnd i c Hi Hc. apply NoDup_cons in Hnd as [Hx' Hnd].
        destruct i as [|i]; simpl in Hi; [congruence|].
        simpl. by apply Hfall.
Qed.

Lemma spawned_below x ys : ∀ r h r', (r' < r)%nat → spawned x ys r h r' = h r'.
Proof.
  induction ys as [|y ys IH]; intros r h r' Hlt; simpl; [done|].
  rewrite IH by lia. apply fn_lookup_insert_ne. lia.
Qed.

Lemma spawned_at x ys : ∀ r h k y,
  ys !! k = Some y → spawned x ys r h (r + k)%nat = Circle (pick (r + k)%nat) x y true.
Proof.
  induction ys as [|y' ys IH]; intros r h k y Hk; [by rewrite lookup_nil in Hk|].
  destruct k as [|k]; simpl in *.
  - injection Hk as ->. rewrite spawned_below by lia.
    replace (r + 0)%nat with r by lia. apply fn_lookup_insert.
  - replace (r + S k)%nat with (S r + k)%nat by lia. by apply IH.
Qed.

Lemma spawned_active x ys : ∀ r h c,
  active (h c) = true → active (spawned x ys r h c) = true.
Proof.
  induction ys as [|y ys IH]; intros r h c Hc; simpl; [done|].
  apply IH. destruct (decide (r = c)) as [<-|Hne].
  - by rewrite fn_lookup_insert.
  - by rewrite fn_lookup_insert_ne.
Qed.

Lemma createNewCircles_eq x ys : ∀ s,
  createNewCircles x ys s =
    (seq (nextId s) (length ys),
     set_nextId (nextId s + length ys) (set_heap (spawned x ys (nextId s) (heap s)) s)).
Proof.
  induction ys as [|y ys IH]; intros s; simpl.
  - destruct s; simpl. by rewrite Nat.add_0_r.
  - unfold createNewCircle. rewrite IH. destruct s; simpl.
    by rewrite Nat.add_succ_r.
Qed.

(** [updateColumn] in closed form. *)
Lemma updateColumn_eq column col s h' :
  index (board s) column = Some col →
  scanColumn (heap s) col
    = (h', Z.of_nat (deadCount (heap s) col), reverse (survivors (heap s) col)) →
  let gridYs := Z.of_nat <$> seq 0 (GRID_HEIGHT - length (survivors (heap s) col)) in
  updateColumn column s =
    Some (set_boardRefillHappening false
            (set_board (<[Z.to_nat column :=
                            seq (nextId s) (length gridYs) ++ survivors (heap s) col]>
                          (board s))
               (set_nextId (nextId s + length gridYs)
                  (set_heap (spawned column gridYs (nextId s) h') s)))).
Proof.
  intros Hcol Heq. simpl.
  unfold updateColumn, addNewCirclesToColumn. rewrite Hcol, Heq.
  rewrite createNewCircles_eq, length_reverse, reverse_involutive.
  assert (0 ≤ column).
  { unfold index in Hcol. destruct (column <? 0) eqn:E; [done|]. by apply Z.ltb_ge in E. }
  rewrite Z2Nat.id by done.
  replace (Z.to_nat (Z.of_nat GRID_HEIGHT - Z.of_nat (length (survivors (heap s) col))))
    with (GRID_HEIGHT - length (survivors (heap s) col))%nat by lia.
  destruct s; done.
Qed.

Lemma index_insert {A} (l : list A) column x y :
  index l column = Some x → index (<[Z.to_nat column := y]> l) column = Some y.
Proof.
  unfold index. destruct (column <? 0); [done|]. intros Hx.
  apply list_lookup_insert_eq. by eapply lookup_lt_Some.
Qed.

(** A circle that passes a filter sits, in the filtered list, after the
    circles above it that pass. *)
Lemma filter_lookup {A} (P : A → Prop) `{∀ x, Decision (P x)} (l : list A) i c :
  l !! i = Some c → P c →
  filter P l !! length (filter P (take i l)) = Some c.
Proof.
  intros Hi Hc.
  transitivity ((filter P (take i l ++ c :: drop (S i) l)) !! length (filter P (take i l))).
  { by rewrite take_drop_middle. }
  rewrite filter_app, filter_cons_True by done.
  by rewrite list_lookup_middle.
Qed.

Lemma slot_after_fall h col i c :
  col !! i = Some c → active (h c) = true →
  (i + deadBelow h col i = deadCount h col + length (survivors h (take i col)))%nat.
Proof.
  intros Hi Hc. unfold deadBelow.
  pose proof (survivors_deadCount h (take i col)) as Htake.
  rewrite length_take_le in Htake by (apply Nat.lt_le_incl; by eapply lookup_lt_Some).
  assert (deadCount h col
          = (deadCount h (take i col) + deadCount h (drop (S i) col))%nat) as ->; [|lia].
  unfold deadCount.
  transitivity (length (filter (λ c, active (h c) = false)
                          (take i col ++ c :: drop (S i) col))).
  { by rewrite take_drop_middle. }
  rewrite filter_app, filter_cons_False by congruence.
  by rewrite length_app.
Qed.

Lemma sameControl_refl s : sameControl s s.
Proof. by repeat split. Qed.

Lemma sameControl_trans s1 s2 s3 : sameControl s1 s2 → sameControl s2 s3 → sameControl s1 s3.
Proof.
  unfold sameControl. intros H12 H23.
  destruct_and!. repeat split; congruence.
Qed.

Lemma index_Some {A} (l : list A) column x :
  index l column = Some x → 0 ≤ column < Z.of_nat (length l).
Proof.
  unfold index. destruct (column <? 0) eqn:E; [done|].
  apply Z.ltb_ge in E. intros Hx%lookup_lt_Some. lia.
Qed.

Lemma index_is_Some {A} (l : list A) column :
  0 ≤ column < Z.of_nat (length l) → is_Some (index l column).
Proof.
  intros [Hlo Hhi]. unfold index. rewrite (proj2 (Z.ltb_ge _ _)) by done.
  apply lookup_lt_is_Some_2. lia.
Qed.

(** Compaction only writes the store, the allocation counter, the board and
    [boardRefillHappening]; the board keeps its number of columns. *)
Lemma updateColumn_frame column s s' :
  updateColumn column s = Some s' →
  sameControl s s' ∧ length (board s') = length (board s).
Proof.
  intros Hup.
  destruct (index (board s) column) as [col|] eqn:Hcol;
    [|by unfold updateColumn in Hup; rewrite Hcol in Hup].
  destruct (scanColumn_spec (heap s) col) as (h' & Heq & _).
  rewrite (updateColumn_eq column col s h' Hcol Heq) in Hup.
  injection Hup as <-. destruct s; simpl. split; [by repeat split|].
  apply length_insert.
Qed.

(** Compaction of one column: the new column, the liveness of its circles
    and of the rest of the store, and the other columns. *)
Lemma updateColumn_live (s : scene) (column : Z) (col : list nat) :
  index (board s) column = Some col →
  (length col ≤ GRID_HEIGHT)%nat →
  ∃ s' newCircles,
    updateColumn column s = Some s' ∧
    index (board s') column = Some (newCircles ++ survivors (heap s) col) ∧
    (length (survivors (heap s) col) + length newCircles = GRID_HEIGHT)%nat ∧
    length (newCircles ++ survivors (heap s) col) = GRID_HEIGHT ∧
    (∀ c, c ∈ newCircles ++ survivors (heap s) col → active (heap s' c) = true) ∧
    (∀ c, active (heap s c) = true → active (heap s' c) = true) ∧
    (∀ j, j ≠ Z.to_nat column → board s' !! j = board s !! j).
Proof.
  intros Hcol Hlen.
  destruct (scanColumn_spec (heap s) col) as (h' & Heq & Hattr & _).
  rewrite (updateColumn_eq column col s h' Hcol Heq).
  pose proof (survivors_deadCount (heap s) col) as Hsd.
  set (gridYs := Z.of_nat <$> seq 0 (GRID_HEIGHT - length (survivors (heap s) col))).
  assert (Hn : length gridYs = (GRID_HEIGHT - length (survivors (heap s) col))%nat).
  { unfold gridYs. by rewrite length_fmap, length_seq. }
  assert (Hlive : ∀ c, active (heap s c) = true →
                       active (spawned column gridYs (nextId s) h' c) = true).
  { intros c Hc. apply spawned_active. destruct (Hattr c) as [-> _]. done. }
  eexists _, (seq (nextId s) (length gridYs)). split; [done|].
  destruct s; simpl in *.
  split; [by eapply index_insert|].
  split; [rewrite length_seq; lia|].
  split; [rewrite length_app, length_seq; lia|].
  split; [|split; [done|]].
  - intros c [Hc|Hc]%elem_of_app.
    + apply elem_of_seq in Hc as [Hlo Hhi].
      assert (∃ k, c = (nextId0 + k)%nat ∧ (k < length gridYs)%nat) as (k & -> & Hk)
        by (exists (c - nextId0)%nat; lia).
      destruct (lookup_lt_is_Some_2 gridYs k Hk) as [y Hy].
      by rewrite (spawned_at column gridYs nextId0 h' k y Hy).
    + apply Hlive. unfold survivors in Hc. by apply list_elem_of_filter in Hc as [? _].
  - intros j Hj. by apply list_lookup_insert_ne.
Qed.

Lemma index_lookup {A} (l : list A) column :
  0 ≤ column → index l column = l !! Z.to_nat column.
Proof. intros Hc. unfold index. by rewrite (proj2 (Z.ltb_ge _ _)). Qed.

(** Compaction of a list of columns that covers every destroyed circle of
    a full board. *)
Lemma updateBoard_live columns : ∀ s,
  (∀ col, col ∈ board s → length col = GRID_HEIGHT) →
  (∀ x, x ∈ columns → 0 ≤ x < Z.of_nat (length (board s))) →
  (∀ j col c, board s !! j = Some col → c ∈ col → active (heap s c) = false →
              Z.of_nat j ∈ columns) →
  ∃ s', updateBoard columns s = Some s' ∧
        length (board s') = length (board s) ∧
        ∀ col, col ∈ board s' →
          length col = GRID_HEIGHT ∧ ∀ c, c ∈ col → active (heap s' c) = true.
Proof.
  induction columns as [|x columns IH]; intros s Hlen Hval Hdead; simpl.
  - exists s. do 2 (split; [done|]). intros col Hcol. split; [auto|].
    intros c Hc. destruct (active (heap s c)) eqn:E; [done|].
    apply list_elem_of_lookup in Hcol as [j Hj].
    specialize (Hdead j col c Hj Hc E). by apply elem_of_nil in Hdead.
  - assert (Hx : 0 ≤ x < Z.of_nat (length (board s))) by (apply Hval; by left).
    destruct (index_is_Some (board s) x Hx) as [col Hcol].
    assert (Hcol' : col ∈ board s).
    { rewrite index_lookup in Hcol by lia. by eapply list_elem_of_lookup_2. }
    destruct (updateColumn_live s x col Hcol) as
      (s1 & new & Hup & Hidx & _ & Hfull & Hlive & Hkeep & Hother);
      [by rewrite (Hlen col Hcol')|].
    rewrite index_lookup in Hidx by lia.
    assert (Hb1 : length (board s1) = length (board s)).
    { assert (Hf : updateColumn x s = Some s1) by done.
      by apply updateColumn_frame in Hf as [_ ?]. }
    rewrite Hup. destruct (IH s1) as (s' & Hs' & Hb' & Hall).
    + intros col1 [j Hj]%list_elem_of_lookup.
      destruct (decide (j = Z.to_nat x)) as [->|Hne].
      * rewrite Hidx in Hj. by injection Hj as <-.
      * rewrite Hother in Hj by done. apply Hlen. by eapply list_elem_of_lookup_2.
    + intros y Hy. rewrite Hb1. apply Hval. by right.
    + intros j col1 c Hj Hc Hd.
      destruct (decide (j = Z.to_nat x)) as [->|Hne].
      * rewrite Hidx in Hj. injection Hj as <-. rewrite Hlive in Hd; done.
      * rewrite Hother in Hj by done.
        assert (Z.of_nat j ∈ x :: columns) as [?|?]%elem_of_cons; [|lia|done].
        apply (Hdead j col1 c Hj Hc).
        destruct (active (heap s c)) eqn:E; [|done]. by rewrite (Hkeep c E) in Hd.
    + exists s'. split; [done|]. split; [congruence|done].
Qed.


(** Claim C2.  Compacting a full column of distinct circles: the new column
    is the new circles followed by the survivors in their original order;
    there are as many new circles as destroyed ones, the [k]-th of them a
    fresh live circle at row [k]; and a survivor that was in slot [i] now
    sits in slot [i] plus the number of destroyed circles that were below
    it, its row increased by that number and nothing else changed. *)
Theorem compaction_order (s : scene) (column : Z) (col : list nat) :
  index (board s) column = Some col →
  length col = GRID_HEIGHT →
  NoDup col →
  (∀ c, c ∈ col → (c < nextId s)%nat) →
  ∃ s' newCircles,
    updateColumn column s = Some s' ∧
    index (board s') column = Some (newCircles ++ survivors (heap s) col) ∧
    length newCircles = deadCount (heap s) col ∧
    (∀ k n, newCircles !! k = Some n →
       (nextId s ≤ n)%nat ∧ heap s' n = Circle (pick n) column (Z.of_nat k) true) ∧
    (∀ i c, col !! i = Some c → active (heap s c) = true →
       (newCircles ++ survivors (heap s) col) !! (i + deadBelow (heap s) col i)%nat = Some c ∧
       heap s' c = fall (Z.of_nat (deadBelow (heap s) col i)) (heap s c)).
Proof.
  intros Hcol Hlen Hnd Hold.
  destruct (scanColumn_spec (heap s) col) as (h' & Heq & Hattr & _ & Hfall).
  rewrite (updateColumn_eq column col s h' Hcol Heq).
  pose proof (survivors_deadCount (heap s) col) as Hsd.
  set (gridYs := Z.of_nat <$> seq 0 (GRID_HEIGHT - length (survivors (heap s) col))).
  assert (Hn : length gridYs = deadCount (heap s) col).
  { unfold gridYs. rewrite length_fmap, length_seq. lia. }
  eexists _, (seq (nextId s) (length gridYs)). split; [done|].
  destruct s; simpl in *.
  split; [by eapply index_insert|].
  split; [by rewrite length_seq|].
  split.
  - intros k n Hk. apply lookup_seq in Hk as [-> Hk]. split; [lia|].
    apply spawned_at. unfold gridYs. rewrite list_lookup_fmap, lookup_seq_lt; [done|].
    unfold gridYs in Hk. by rewrite length_fmap, length_seq in Hk.
  - intros i c Hi Hc. split.
    + rewrite (slot_after_fall _ _ _ _ Hi Hc), <- Hn.
      rewrite lookup_app_r by (rewrite length_seq; lia).
      rewrite length_seq.
      replace (length gridYs + length (survivors heap0 (take i col)) - length gridYs)%nat
        with (length (survivors heap0 (take i col))) by lia.
      by apply filter_lookup.
    + rewrite spawned_below by (apply Hold; by eapply list_elem_of_lookup_2).
      specialize (Hfall Hnd i c Hi Hc). destruct (Hattr c) as (Ha & Hco & Hgx).
      unfold fall. destruct (h' c), (heap0 c); simpl in *. by subst.
Qed.

End CompactorProperties.

(** ** Properties of commits and releases *)

Section CommitProperties.
Context {K : Constants}.

Lemma updateBoard_frame columns : ∀ s s',
  updateBoard columns s = Some s' →
  sameControl s s' ∧ length (board s') = length (board s).
Proof.
  induction columns as [|x columns IH]; intros s s'; simpl.
  - intros [= <-]. split; [apply sameControl_refl|done].
  - destruct (updateColumn x s) as [s1|] eqn:Hx; [|done]. intros Hrest.
    destruct (updateColumn_frame _ _ _ Hx) as [H1 Hl1].
    destruct (IH _ _ Hrest) as [H2 Hl2].
    split; [by eapply sameControl_trans|congruence].
Qed.


Lemma noteColumn_elem h c cols x :
  x ∈ noteColumn h cols c ↔ x ∈ cols ∨ gridX (h c) = x.
Proof.
  unfold noteColumn. destruct (existsb _ cols) eqn:E.
  - apply existsb_exists in E as (y & Hy%list_elem_of_In & ->%Z.eqb_eq).
    split; [by left|]. by intros [?| <-].
  - rewrite elem_of_app, list_elem_of_singleton. split; intros [?|?]; auto.
Qed.

Lemma columnsOf_elem h sel x :
  x ∈ columnsOf h sel ↔ ∃ c, c ∈ sel ∧ gridX (h c) = x.
Proof.
  unfold columnsOf.
  assert (∀ acc, x ∈ foldl (noteColumn h) acc sel
                 ↔ x ∈ acc ∨ ∃ c, c ∈ sel ∧ gridX (h c) = x) as Hgen.
  { induction sel as [|c sel IH]; intros acc; simpl.
    - split; [by left|]. intros [?|(c & Hc & _)]; [done|]. by apply elem_of_nil in Hc.
    - rewrite IH, noteColumn_elem. split.
      + intros [[?|?]|(c' & ? & ?)]; [by left| |].
        * right. exists c. split; [by left|done].
        * right. exists c'. split; [by right|done].
      + intros [?|(c' & [->|?]%elem_of_cons & ?)]; [by left; left|by left; right|].
        right. by exists c'. }
  rewrite Hgen. split; [|by right]. intros [Hx|?]; [|done]. by apply elem_of_nil in Hx.
Qed.

(** Once the last tween of a batch completes, the board is compacted in a
    scene where every circle of the batch is destroyed, and the chain is
    emptied; the callbacks before the last only destroy their circle. *)
Lemma runShrinkTweens_all rest : ∀ k d cols s,
  shrinkTweens s !! k = Some (ShrinkBatch d cols rest) →
  length (selectedCircles s) = (d + length rest)%nat →
  rest ≠ [] →
  runShrinkTweens (length rest) k s =
    match updateBoard cols (shrunk k (ShrinkBatch d cols rest) s) with
    | Some s3 => Some (set_selectedCircles [] s3)
    | None => None
    end.
Proof.
  induction rest as [|c rest IH]; intros k d cols s Hk Hlen Hne; [done|].
  assert (Hlt : (k < length (shrinkTweens s))%nat) by (by eapply lookup_lt_Some).
  simpl runShrinkTweens. unfold onShrinkComplete. rewrite Hk.
  destruct rest as [|c' rest].
  - assert (shrunk k (ShrinkBatch d cols [c]) s
            = set_shrinkTweens (<[k := ShrinkBatch (S d) cols []]> (shrinkTweens s))
                (set_heap (<[c := destroy (heap s c)]> (heap s)) s)) as ->.
    { unfold shrunk. simpl. by rewrite Nat.add_1_r. }
    destruct s; simpl in *. rewrite Hlen, Nat.add_1_r, Nat.eqb_refl.
    by destruct (updateBoard cols _).
  - set (s2 := set_shrinkTweens _ _).
    assert (Hsel : selectedCircles s2 = selectedCircles s) by (by destruct s).
    rewrite Hsel, Hlen. rewrite (proj2 (Nat.eqb_neq _ _)) by (simpl; lia).
    rewrite (IH k (S d) cols s2).
    + assert (shrunk k (ShrinkBatch (S d) cols (c' :: rest)) s2
              = shrunk k (ShrinkBatch d cols (c :: c' :: rest)) s) as ->; [|done].
      unfold shrunk, s2. destruct s; simpl.
      rewrite list_insert_insert_eq. do 4 f_equal. lia.
    + unfold s2. destruct s; simpl in *. by apply list_lookup_insert_eq.
    + rewrite Hsel, Hlen. simpl. lia.
    + done.
Qed.

Lemma pointsFor_spec len : pointsFor len = specPoints len.
Proof.
  unfold pointsFor, specPoints.
  destruct (len >=? 10) eqn:E1, (len <? 10) eqn:E2; lia.
Qed.

(** [clearAllSelectedCircles] in closed form. *)
Lemma clearAllSelectedCircles_eq s sel :
  clearSet s = Some sel → sel ≠ [] →
  clearAllSelectedCircles s =
    Some (set_shrinkTweens (shrinkTweens s ++ [ShrinkBatch 0 (columnsOf (heap s) sel) sel])
            (set_score (score s + pointsFor (Z.of_nat (length sel)))
               (set_currentPointsToAdd 0
                  (set_loopCreated false
                     (set_boardRefillHappening true (set_selectedCircles sel s)))))).
Proof.
  intros Hsel Hne. unfold clearAllSelectedCircles. rewrite Hsel.
  destruct sel as [|c sel]; [done|]. by destruct s.
Qed.

(** Claim C6.  Committing a clear set (the chain, or the similar-colour set
    in a loop) adds to the score its length when that is below 10, and twice
    its length otherwise: 9 for a length of 9, 20 for 10, 1 for 1. *)
Theorem commit_points (s : scene) (sel : list nat) :
  clearSet s = Some sel →
  sel ≠ [] →
  ∃ s', clearAllSelectedCircles s = Some s' ∧
        selectedCircles s' = sel ∧
        score s' - score s = specPoints (Z.of_nat (length sel)) ∧
        (length sel = 9%nat → score s' = score s + 9) ∧
        (length sel = 10%nat → score s' = score s + 20) ∧
        (length sel = 1%nat → score s' = score s + 1).
Proof.
  intros Hsel Hne. rewrite (clearAllSelectedCircles_eq s sel Hsel Hne).
  eexists; split; [done|]. rewrite <- pointsFor_spec.
  destruct s; simpl.
  split; [done|]. split; [lia|].
  repeat split; intros ->; simpl; unfold pointsFor; simpl; lia.
Qed.

Lemma destroyAll_dead cs : ∀ h c,
  c ∈ cs ∨ active (h c) = false → active (destroyAll cs h c) = false.
Proof.
  unfold destroyAll. induction cs as [|x cs IH]; intros h c Hc; simpl.
  - destruct Hc as [Hc|Hc]; [by apply elem_of_nil in Hc|done].
  - apply IH. destruct (decide (x = c)) as [<-|Hne].
    + right. by rewrite fn_lookup_insert.
    + rewrite fn_lookup_insert_ne by done.
      destruct Hc as [[->|Hc]%elem_of_cons|Hc]; [done|by left|by right].
Qed.


Lemma onOverlap_loopInv s c s' :
  c ∈ concat (board s) → loopInv s → onOverlap c s = Some s' →
  loopInv s' ∧ board s' = board s ∧ heap s' = heap s ∧
  gameIsRunning s' = gameIsRunning s ∧ score s' = score s.
Proof.
  intros Hc Hinv. unfold onOverlap.
  destruct (isValidNextCircle s c); [|by intros [= <-]].
  destruct (isBackTracking s c).
  { unfold removeCircleFromChain.
    destruct s as [h n b sel sim lp rf run sc hs cp pe m tw]; simpl in *.
    destruct (last sel); [|done]. intros [= <-]. by repeat split. }
  destruct (includes (selectedCircles s) c) eqn:Hin, (loopCreated s) eqn:Hlp;
    simpl; intros [= <-]; try done.
  - destruct s as [h n b sel sim lp rf run sc hs cp pe m tw]; simpl in *.
    split; [|done]. intros _; simpl. split.
    + rewrite length_app; simpl. destruct sel; [done|simpl; lia].
    + exists c. by rewrite last_snoc.
  - destruct s as [h n b sel sim lp rf run sc hs cp pe m tw]; simpl in *.
    split; [|done]. intros Hl; simpl in Hl. congruence.
Qed.

Lemma touches_loopInv cs : ∀ s s',
  (∀ c, c ∈ cs → c ∈ concat (board s)) → loopInv s → touches cs s = Some s' →
  loopInv s' ∧ board s' = board s ∧ heap s' = heap s ∧
  gameIsRunning s' = gameIsRunning s ∧ score s' = score s.
Proof.
  induction cs as [|c cs IH]; intros s s' Hcs Hinv; simpl.
  - by intros [= <-].
  - destruct (onOverlap c s) as [s1|] eqn:H1; [|done]. intros Hrest.
    destruct (onOverlap_loopInv s c s1) as (Hi1 & Hb1 & Hh1 & Hr1 & Hs1);
      [apply Hcs; by left|done|done|].
    destruct (IH s1 s') as (Hi & Hb & Hh & Hr & Hs);
      [intros x Hx; rewrite Hb1; apply Hcs; by right|done|done|].
    split; [done|]. repeat split; congruence.
Qed.

(** Claim C9.  After any sequence of touches of board circles that leaves a
    loop open, a release commits the similar-colour set captured when the
    loop was closed: the circles of the board that have the colour of the
    chain.  The chain is replaced by that set, and the points added are the
    number of those circles, doubled when there are 10 or more; the length of
    the chain, with its repeated circle, plays no part. *)
Theorem loop_commit (s0 : scene) (cs : list nat) (s : scene) :
  loopCreated s0 = false →
  (∀ c, c ∈ cs → c ∈ concat (board s0)) →
  touches cs s0 = Some s →
  loopCreated s = true →
  gameIsRunning s = true →
  ∃ c sim s',
    last (selectedCircles s) = Some c ∧
    sim = filter (λ x, color (heap s x) = color (heap s c)) (concat (board s)) ∧
    allSimilarColorCircles s = Some sim ∧
    onPointerUp s = Some s' ∧
    selectedCircles s' = sim ∧
    last (shrinkTweens s') = Some (ShrinkBatch 0 (columnsOf (heap s) sim) sim) ∧
    score s' = score s + (if 10 <=? Z.of_nat (length sim)
                          then 2 * Z.of_nat (length sim) else Z.of_nat (length sim)) ∧
    (NoDup (concat (board s)) → NoDup sim).
Proof.
  intros Hl0 Hcs Hto Hlp Hrun.
  destruct (touches_loopInv cs s0 s Hcs) as (Hinv & Hb & _); [by intros ?; congruence|done|].
  destruct (Hinv Hlp) as (Hlen & c & Hlast & Hc & Hsim).
  set (sim := filter (λ x, color (heap s x) = color (heap s c)) (concat (board s))) in *.
  assert (Hne : sim ≠ []).
  { intros Hnil. assert (c ∈ sim) as Hin by (by apply list_elem_of_filter).
    rewrite Hnil in Hin. by apply elem_of_nil in Hin. }
  assert (Hup : onPointerUp s = clearAllSelectedCircles (set_pointerBodyEnabled false s)).
  { unfold onPointerUp. rewrite Hrun.
    destruct s as [h n b sel0 sm lp rf run sc hs cp pe m tw]; simpl in *.
    destruct sel0 as [|c0 [|c' sel0]]; simpl in *; [lia|lia|done]. }
  exists c, sim. eexists. do 3 (split; [done|]).
  rewrite Hup, (clearAllSelectedCircles_eq _ sim);
    [|by destruct s; simpl in *; subst|done].
  split; [done|].
  destruct s as [h n b sel0 sm lp rf run sc hs cp pe m tw]; simpl in *.
  split; [done|]. split; [by rewrite last_snoc|].
  split; [|by apply NoDup_filter].
  unfold pointsFor. destruct (_ >=? 10) eqn:E1, (10 <=? _) eqn:E2; lia.
Qed.

End CommitProperties.

(** ** Properties of the round controller and of the preview counter *)

Section RoundProperties.
Context {K : Constants}.

Lemma createCell_frame y xs : ∀ st,
  sameControl st.2 (foldl (createCell y) st xs).2.
Proof.
  induction xs as [|x xs IH]; intros [b s]; simpl; [apply sameControl_refl|].
  eapply sameControl_trans; [|apply IH].
  destruct s; simpl. by repeat split.
Qed.

Lemma createInitialBoard_frame s : sameControl s (createInitialBoard s).
Proof.
  unfold createInitialBoard.
  assert (∀ ys st, sameControl st.2
            (foldl (λ st y, foldl (createCell y) st (seq 0 GRID_WIDTH)) st ys).2) as Hrows.
  { induction ys as [|y ys IH]; intros st; simpl; [apply sameControl_refl|].
    eapply sameControl_trans; [apply createCell_frame|apply IH]. }
  specialize (Hrows (seq 0 GRID_HEIGHT) (replicate GRID_WIDTH [], s)).
  destruct (foldl _ _ (seq 0 GRID_HEIGHT)) as [b s1]. simpl in Hrows.
  eapply sameControl_trans; [exact Hrows|].
  destruct s1; simpl. by repeat split.
Qed.

Lemma onOverlap_counters c s s' :
  onOverlap c s = Some s' →
  highScore s' = highScore s ∧
  (currentPointsToAdd s' = currentPointsToAdd s ∨
   currentPointsToAdd s' = currentPointsToAdd s + 1 ∨
   currentPointsToAdd s' = currentPointsToAdd s - 1).
Proof.
  unfold onOverlap, removeCircleFromChain.
  destruct s as [h n b sel sim lp rf run sc hs cp pe m tw]; simpl.
  repeat case_match; intros [= <-]; simpl; auto with lia.
Qed.

Lemma onPointerUp_counters s s' :
  onPointerUp s = Some s' →
  highScore s' = highScore s ∧
  (currentPointsToAdd s' = currentPointsToAdd s ∨
   gameIsRunning s = true ∧ (1 < length (selectedCircles s))%nat ∧
   currentPointsToAdd s' = 0).
Proof.
  unfold onPointerUp, clearAllSelectedCircles.
  destruct s as [h n b sel sim lp rf run sc hs cp pe m tw]; simpl.
  destruct run; [|by intros [= <-]; auto].
  destruct sel as [|c [|c' sel]]; simpl; [by intros [= <-]; auto..|].
  repeat case_match; intros [= <-]; simpl; split; try done; right; repeat split; lia.
Qed.

Lemma onShrinkComplete_counters k s s' :
  onShrinkComplete k s = Some s' →
  highScore s' = highScore s ∧ currentPointsToAdd s' = currentPointsToAdd s.
Proof.
  unfold onShrinkComplete.
  destruct (shrinkTweens s !! k) as [[d cols [|c rest]]|]; try by intros [= <-].
  set (s2 := set_shrinkTweens _ _).
  assert (highScore s2 = highScore s ∧ currentPointsToAdd s2 = currentPointsToAdd s)
    as [Hh Hc] by (by destruct s).
  destruct (Nat.eqb _ _); [|by intros [= <-]].
  destruct (updateBoard cols s2) as [s3|] eqn:Hup; [|done]. intros [= <-].
  destruct (updateBoard_frame _ _ _ Hup) as [Hf _].
  unfold sameControl in Hf. destruct_and!.
  destruct s3; simpl in *. split; congruence.
Qed.

Lemma onStartButton_counters s :
  highScore (onStartButton s) = highScore s ∧ currentPointsToAdd (onStartButton s) = 0.
Proof.
  unfold onStartButton, startGame.
  pose proof (createInitialBoard_frame (startTimer (initializeGameVariables s))) as Hf.
  unfold sameControl in Hf. destruct_and!.
  destruct (createInitialBoard _); simpl in *.
  destruct s; simpl in *. split; congruence.
Qed.

(** Claim C8.  When the countdown completes the round stops running, the
    high score becomes the maximum of itself and the score (so it changes
    only if the score is higher), every circle of the board is destroyed,
    the board and the chain are emptied and the end-of-round menu shows the
    score and the high score.  [create] sets the high score to 0, starting a
    round leaves it alone, and so does every event but the end of the
    countdown. *)
Theorem countdown_complete (s : scene) :
  gameIsRunning (onCountdownComplete s) = false ∧
  highScore (onCountdownComplete s) = Z.max (highScore s) (score s) ∧
  (highScore (onCountdownComplete s) ≠ highScore s → score s > highScore s) ∧
  score (onCountdownComplete s) = score s ∧
  board (onCountdownComplete s) = [] ∧
  selectedCircles (onCountdownComplete s) = [] ∧
  (∀ c, c ∈ concat (board s) → active (heap (onCountdownComplete s) c) = false) ∧
  menu (onCountdownComplete s)
    = Some (EndOfRoundMenu (score s) (Z.max (highScore s) (score s))) ∧
  highScore create = 0 ∧
  highScore (startGame s) = highScore s ∧
  (∀ e s1, step e s = Some s1 → e ≠ CountdownComplete → highScore s1 = highScore s).
Proof.
  assert (Hframe : ∀ e s1, step e s = Some s1 → e ≠ CountdownComplete →
                           highScore s1 = highScore s).
  { intros e s1 Hstep Hne. destruct e; simpl in Hstep.
    - destruct (pointerBodyEnabled s); [|by injection Hstep as <-].
      by apply onOverlap_counters in Hstep as [-> _].
    - injection Hstep as <-. unfold onPointerDown. destruct s; simpl.
      by repeat case_match.
    - by apply onPointerUp_counters in Hstep as [-> _].
    - by apply onShrinkComplete_counters in Hstep as [-> _].
    - done.
    - injection Hstep as <-. apply onStartButton_counters. }
  assert (Hstart : highScore (startGame s) = highScore s).
  { pose proof (proj1 (onStartButton_counters s)) as Hst.
    unfold onStartButton in Hst. by destruct (startGame s). }
  assert (Hdead : ∀ c, c ∈ concat (board s) →
                       active (destroyAll (concat (board s)) (heap s) c) = false).
  { intros c Hc. apply destroyAll_dead. by left. }
  unfold onCountdownComplete, clearPreviousGame, clearBoard.
  destruct s as [h n b sel sim lp rf run sc hs cp pe m tw]; simpl in *.
  destruct (sc >? hs) eqn:E; simpl.
  - repeat split; try done; try lia. by rewrite Z.max_r by lia.
  - repeat split; try done; try lia. by rewrite Z.max_l by lia.
Qed.

(** Claim C10.  Releasing a chain of exactly one circle empties the chain
    and changes nothing else that bears on the score: the preview counter
    keeps its value (1 when the circle was the first touch of a fresh round)
    as do the score, the high score, the loop state, the board, the store and
    the pending tweens.  Over all events, the counter moves by one on a
    touch, is set to 0 by a release that commits a chain of more than one
    circle and by the start of a round, and is otherwise left alone. *)
Theorem single_release (s : scene) (c : nat) :
  gameIsRunning s = true →
  selectedCircles s = [c] →
  ∃ s', onPointerUp s = Some s' ∧
        selectedCircles s' = [] ∧
        currentPointsToAdd s' = currentPointsToAdd s ∧
        score s' = score s ∧ highScore s' = highScore s ∧
        loopCreated s' = loopCreated s ∧
        allSimilarColorCircles s' = allSimilarColorCircles s ∧
        board s' = board s ∧ heap s' = heap s ∧
        shrinkTweens s' = shrinkTweens s ∧
        (∀ s0, selectedCircles s0 = [] → loopCreated s0 = false →
               currentPointsToAdd s0 = 0 → onOverlap c s0 = Some s →
               currentPointsToAdd s' = 1) ∧
        (∀ e t t', step e t = Some t' →
           currentPointsToAdd t' = currentPointsToAdd t ∨
           (∃ c', e = Overlap c' ∧
                  (currentPointsToAdd t' = currentPointsToAdd t + 1 ∨
                   currentPointsToAdd t' = currentPointsToAdd t - 1)) ∨
           (e = PointerUp ∧ gameIsRunning t = true ∧
            (1 < length (selectedCircles t))%nat ∧ currentPointsToAdd t' = 0) ∨
           (e = StartButton ∧ currentPointsToAdd t' = 0)).
Proof.
  intros Hrun Hsel. unfold onPointerUp. rewrite Hrun.
  destruct s as [h n b sel sim lp rf run sc hs cp pe m tw]; simpl in *.
  subst sel. simpl. eexists. split; [reflexivity|]. simpl.
  do 9 (split; [done|]). split.
  - intros s0 Hs0 Hl0 Hc0. unfold onOverlap, isValidNextCircle, isBackTracking, includes.
    rewrite Hs0, Hl0. simpl. intros [= Heq].
    apply (f_equal currentPointsToAdd) in Heq. destruct s0; simpl in *. lia.
  - intros e t t' Hstep. destruct e; simpl in Hstep.
    + destruct (pointerBodyEnabled t); [|injection Hstep as <-; by left].
      apply onOverlap_counters in Hstep as [_ [?|[?|?]]]; [by left|right; left; eauto..].
    + injection Hstep as <-. left. unfold onPointerDown. destruct t; simpl.
      by repeat case_match.
    + apply onPointerUp_counters in Hstep as [_ [?|?]]; [by left|]. right; right; left. tauto.
    + apply onShrinkComplete_counters in Hstep as [_ ?]. by left.
    + injection Hstep as <-. left. unfold onCountdownComplete. destruct t; simpl.
      by repeat case_match.
    + injection Hstep as <-. right; right; right. split; [done|].
      apply onStartButton_counters.
Qed.

End RoundProperties.

(** ** Boards of reachable scenes

    The hypotheses the compaction theorems make on a column (full, distinct
    circles, allocated references) hold of every column of every scene
    reached from [create]. *)

Section ReachableBoards.
Context {K : Constants}.

Lemma createRow_spec y : ∀ k a b s b' s',
  (a + k ≤ length b)%nat →
  foldl (createCell y) (b, s) (seq a k) = (b', s') →
  length b' = length b ∧ nextId s' = (nextId s + k)%nat ∧
  ∀ j, b' !! j =
       if bool_decide (a ≤ j < a + k)%nat
       then (λ col, col ++ [(nextId s + (j - a))%nat]) <$> b !! j
       else b !! j.
Proof.
  induction k as [|k IH]; intros a b s b' s' Hle Hfold; simpl in Hfold.
  - injection Hfold as <- <-. split; [done|]. split; [lia|].
    intros j. rewrite bool_decide_eq_false_2; [done|lia].
  - destruct (IH (S a) (alter (λ col, col ++ [nextId s]) a b)
                (set_nextId (S (nextId s))
                   (set_heap (<[nextId s := Circle (pick (nextId s)) (Z.of_nat a)
                                               (Z.of_nat y) true]> (heap s)) s))
                b' s') as (Hlen & Hnext & Hcols).
    + rewrite length_alter. lia.
    + exact Hfold.
    + rewrite length_alter in Hlen. split; [done|].
      split; [destruct s; simpl in *; lia|].
      intros j. rewrite Hcols.
      assert (Hn : nextId (set_nextId (S (nextId s))
                     (set_heap (<[nextId s := Circle (pick (nextId s)) (Z.of_nat a)
                                                 (Z.of_nat y) true]> (heap s)) s))
                   = S (nextId s)) by (by destruct s).
      rewrite Hn. destruct (decide (j = a)) as [->|Hne].
      * rewrite bool_decide_eq_false_2 by lia. rewrite bool_decide_eq_true_2 by lia.
        rewrite list_lookup_alter_eq. by rewrite Nat.sub_diag, Nat.add_0_r.
      * rewrite list_lookup_alter_ne by done.
        destruct (decide (S a ≤ j < S a + k)%nat).
        -- rewrite !bool_decide_eq_true_2 by lia.
           by replace (S (nextId s) + (j - S a))%nat with (nextId s + (j - a))%nat by lia.
        -- by rewrite !bool_decide_eq_false_2 by lia.
Qed.

Lemma createRows_spec : ∀ m y0 b s b' s',
  length b = GRID_WIDTH →
  foldl (λ st y, foldl (createCell y) st (seq 0 GRID_WIDTH)) (b, s) (seq y0 m) = (b', s') →
  length b' = GRID_WIDTH ∧ nextId s' = (nextId s + m * GRID_WIDTH)%nat ∧
  ∀ j col, b !! j = Some col →
    b' !! j = Some (col ++ ((λ i, nextId s + i * GRID_WIDTH + j)%nat <$> seq 0 m)).
Proof.
  induction m as [|m IH]; intros y0 b s b' s' Hb Hfold; simpl in Hfold.
  - injection Hfold as <- <-. split; [done|]. split; [lia|].
    intros j col Hj. by rewrite app_nil_r.
  - destruct (foldl (createCell y0) (b, s) (seq 0 GRID_WIDTH)) as [b1 s1] eqn:Hrow.
    destruct (createRow_spec y0 GRID_WIDTH 0 b s b1 s1) as (Hb1 & Hn1 & Hc1);
      [lia|done|].
    destruct (IH (S y0) b1 s1 b' s') as (Hb' & Hn' & Hc'); [congruence|done|].
    split; [done|]. split; [lia|].
    intros j col Hj.
    assert (Hjw : (j < GRID_WIDTH)%nat) by (rewrite <- Hb; by eapply lookup_lt_Some).
    rewrite (Hc' j (col ++ [(nextId s + j)%nat])).
    + f_equal. rewrite <- (assoc_L (++)). f_equal. simpl. f_equal; [lia|].
      rewrite <- fmap_S_seq, <- list_fmap_compose.
      apply list_fmap_ext. intros _ i _. simpl. lia.
    + rewrite Hc1, bool_decide_eq_true_2, Hj by lia. simpl.
      by rewrite Nat.sub_0_r.
Qed.

Lemma createInitialBoard_wf s : wfBoard (createInitialBoard s).
Proof.
  unfold createInitialBoard.
  destruct (foldl _ _ (seq 0 GRID_HEIGHT)) as [b' s'] eqn:Hfold.
  destruct (createRows_spec GRID_HEIGHT 0 (replicate GRID_WIDTH []) s b' s')
    as (Hb' & Hn' & Hc'); [apply length_replicate|done|].
  intros col [j Hj]%list_elem_of_lookup.
  assert (Hjw : (j < GRID_WIDTH)%nat).
  { destruct s'; simpl in *. rewrite <- Hb'. by eapply lookup_lt_Some. }
  assert (col = (λ i, nextId s + i * GRID_WIDTH + j)%nat <$> seq 0 GRID_HEIGHT) as ->.
  { specialize (Hc' j [] (lookup_replicate_2 _ _ _ Hjw)).
    destruct s'; simpl in *. congruence. }
  split; [by rewrite length_fmap, length_seq|]. split.
  - apply NoDup_fmap_2_strong; [|apply NoDup_seq].
    intros i1 i2 _ _ Heq. nia.
  - intros c (i & -> & [_ Hi]%elem_of_seq)%list_elem_of_fmap.
    destruct s'; simpl in *. nia.
Qed.

Lemma updateColumn_wf column s s' :
  wfBoard s → updateColumn column s = Some s' → wfBoard s'.
Proof.
  intros Hwf Hup.
  destruct (index (board s) column) as [col|] eqn:Hcol;
    [|by unfold updateColumn in Hup; rewrite Hcol in Hup].
  destruct (scanColumn_spec (heap s) col) as (h' & Heq & _).
  rewrite (updateColumn_eq column col s h' Hcol Heq) in Hup.
  injection Hup as <-.
  pose proof (index_Some _ _ _ Hcol) as Hrange.
  rewrite index_lookup in Hcol by lia.
  destruct (Hwf col) as (Hfull & Hnd & Hold); [by eapply list_elem_of_lookup_2|].
  pose proof (survivors_deadCount (heap s) col) as Hsd.
  intros col' [j Hj]%list_elem_of_lookup.
  destruct s as [h n b sel sim lp rf run0 sc hs cp pe m tw]; simpl in *.
  rewrite length_fmap, length_seq in *.
  destruct (decide (j = Z.to_nat column)) as [->|Hne].
  - rewrite list_lookup_insert_eq in Hj by lia. injection Hj as <-.
    split; [rewrite length_app, length_seq; lia|]. split.
    + apply NoDup_app. split; [apply NoDup_seq|]. split; [|by apply NoDup_filter].
      intros c [Hc _]%elem_of_seq Hc'. unfold survivors in Hc'.
      apply list_elem_of_filter in Hc' as [_ Hc']. specialize (Hold c Hc'). lia.
    + intros c [Hc|Hc]%elem_of_app.
      * apply elem_of_seq in Hc. lia.
      * unfold survivors in Hc. apply list_elem_of_filter in Hc as [_ Hc].
        specialize (Hold c Hc). lia.
  - rewrite list_lookup_insert_ne in Hj by done.
    destruct (Hwf col') as (? & ? & Hold'); [by eapply list_elem_of_lookup_2|].
    do 2 (split; [done|]). intros c Hc. specialize (Hold' c Hc). simpl in Hold'. lia.
Qed.

Lemma updateBoard_wf columns : ∀ s s',
  wfBoard s → updateBoard columns s = Some s' → wfBoard s'.
Proof.
  induction columns as [|x columns IH]; intros s s' Hwf; simpl.
  - by intros [= <-].
  - destruct (updateColumn x s) as [s1|] eqn:Hx; [|done].
    apply IH. by eapply updateColumn_wf.
Qed.

(** A handler that leaves the board and the allocation counter alone keeps
    the board well formed. *)
Lemma wfBoard_same s s' :
  board s' = board s → nextId s' = nextId s → wfBoard s → wfBoard s'.
Proof. unfold wfBoard. intros -> ->. done. Qed.

Lemma onOverlap_board c s s' :
  onOverlap c s = Some s' → board s' = board s ∧ nextId s' = nextId s.
Proof.
  unfold onOverlap, removeCircleFromChain.
  destruct s; simpl. repeat case_match; by intros [= <-].
Qed.

Lemma onPointerUp_board s s' :
  onPointerUp s = Some s' → board s' = board s ∧ nextId s' = nextId s.
Proof.
  unfold onPointerUp, clearAllSelectedCircles, clearSet.
  destruct s; simpl. repeat case_match; by intros [= <-].
Qed.

Lemma step_wf e s s' : wfBoard s → step e s = Some s' → wfBoard s'.
Proof.
  intros Hwf Hstep. destruct e; simpl in Hstep.
  - destruct (pointerBodyEnabled s); [|by injection Hstep as <-].
    apply onOverlap_board in Hstep as [? ?]. by apply (wfBoard_same s).
  - injection Hstep as <-. apply (wfBoard_same s); [..|done];
      unfold onPointerDown; destruct s; simpl; by repeat case_match.
  - apply onPointerUp_board in Hstep as [? ?]. by apply (wfBoard_same s).
  - unfold onShrinkComplete in Hstep.
    destruct (shrinkTweens s !! k) as [[d cols [|c rest]]|];
      try by injection Hstep as <-.
    set (s2 := set_shrinkTweens _ _) in Hstep.
    assert (Hwf2 : wfBoard s2) by (apply (wfBoard_same s); [by destruct s..|done]).
    destruct (Nat.eqb _ _); [|by injection Hstep as <-].
    destruct (updateBoard cols s2) as [s3|] eqn:Hup; [|done]. injection Hstep as <-.
    apply (wfBoard_same s3); [by destruct s3..|]. by eapply updateBoard_wf.
  - injection Hstep as <-. intros col Hcol.
    unfold onCountdownComplete in Hcol. destruct s; simpl in Hcol.
    destruct (_ >? _); simpl in Hcol; by apply elem_of_nil in Hcol.
  - injection Hstep as <-. unfold onStartButton, startGame.
    apply (wfBoard_same (createInitialBoard (startTimer (initializeGameVariables s))));
      [by destruct (createInitialBoard _)..|].
    apply createInitialBoard_wf.
Qed.

(** Every scene reached from [create] has a well-formed board. *)
Theorem reachable_wf (es : list event) (s : scene) :
  run es create = Some s → wfBoard s.
Proof.
  assert (∀ s0, wfBoard s0 → run es s0 = Some s → wfBoard s) as Hgen.
  { induction es as [|e es IH]; intros s0 Hwf; simpl.
    - by intros [= <-].
    - destruct (step e s0) as [s1|] eqn:Hstep; [|done].
      apply IH. by eapply step_wf. }
  apply Hgen. intros col Hcol. by apply elem_of_nil in Hcol.
Qed.

End ReachableBoards.

(** ** The board of a new round, and the positions circles record *)

Section GridProperties.
Context {K : Constants}.

Lemma createRow_heap y : ∀ k a b s b' s',
  foldl (createCell y) (b, s) (seq a k) = (b', s') →
  (∀ r, (r < nextId s)%nat → heap s' r = heap s r) ∧
  (∀ j, (j < k)%nat →
        heap s' (nextId s + j)%nat
        = Circle (pick (nextId s + j)%nat) (Z.of_nat (a + j)) (Z.of_nat y) true).
Proof.
  induction k as [|k IH]; intros a b s b' s' Hfold; simpl in Hfold.
  - injection Hfold as <- <-. split; [done|]. intros j Hj. lia.
  - destruct (IH (S a) (alter (λ col, col ++ [nextId s]) a b)
                (set_nextId (S (nextId s))
                   (set_heap (<[nextId s := Circle (pick (nextId s)) (Z.of_nat a)
                                               (Z.of_nat y) true]> (heap s)) s))
                b' s' Hfold) as (Hold & Hnew).
    assert (Hn : nextId (set_nextId (S (nextId s))
                   (set_heap (<[nextId s := Circle (pick (nextId s)) (Z.of_nat a)
                                               (Z.of_nat y) true]> (heap s)) s))
                 = S (nextId s)) by (by destruct s).
    assert (Hh : heap (set_nextId (S (nextId s))
                   (set_heap (<[nextId s := Circle (pick (nextId s)) (Z.of_nat a)
                                               (Z.of_nat y) true]> (heap s)) s))
                 = <[nextId s := Circle (pick (nextId s)) (Z.of_nat a)
                                   (Z.of_nat y) true]> (heap s)) by (by destruct s).
    rewrite Hn in Hold, Hnew. rewrite Hh in Hold. split.
    + intros r Hr. rewrite Hold by lia. apply fn_lookup_insert_ne. lia.
    + intros [|j] Hj.
      * rewrite !Nat.add_0_r, Hold by lia. apply fn_lookup_insert.
      * specialize (Hnew j ltac:(lia)).
        replace (nextId s + S j)%nat with (S (nextId s) + j)%nat by lia.
        by replace (a + S j)%nat with (S a + j)%nat by lia.
Qed.

Lemma createRows_heap : ∀ m y0 b s b' s',
  length b = GRID_WIDTH →
  foldl (λ st y, foldl (createCell y) st (seq 0 GRID_WIDTH)) (b, s) (seq y0 m) = (b', s') →
  (∀ r, (r < nextId s)%nat → heap s' r = heap s r) ∧
  (∀ i j, (i < m)%nat → (j < GRID_WIDTH)%nat →
          heap s' (nextId s + i * GRID_WIDTH + j)%nat
          = Circle (pick (nextId s + i * GRID_WIDTH + j)%nat)
              (Z.of_nat j) (Z.of_nat (y0 + i)) true).
Proof.
  induction m as [|m IH]; intros y0 b s b' s' Hb Hfold; simpl in Hfold.
  - injection Hfold as <- <-. split; [done|]. intros i j Hi. lia.
  - destruct (foldl (createCell y0) (b, s) (seq 0 GRID_WIDTH)) as [b1 s1] eqn:Hrow.
    destruct (createRow_spec y0 GRID_WIDTH 0 b s b1 s1) as (Hb1 & Hn1 & _); [lia|done|].
    destruct (createRow_heap y0 GRID_WIDTH 0 b s b1 s1 Hrow) as (Hold1 & Hnew1).
    destruct (IH (S y0) b1 s1 b' s') as (Hold & Hnew); [congruence|done|].
    rewrite Hn1 in Hold, Hnew. split.
    + intros r Hr. rewrite Hold by lia. by apply Hold1.
    + intros [|i] j Hi Hj.
      * rewrite Hold by (simpl; lia). simpl. rewrite Nat.add_0_r.
        rewrite (Hnew1 j Hj). by rewrite Nat.add_0_r.
      * specialize (Hnew i j ltac:(lia) Hj).
        replace (nextId s + S i * GRID_WIDTH + j)%nat
          with (nextId s + GRID_WIDTH + i * GRID_WIDTH + j)%nat by lia.
        by replace (y0 + S i)%nat with (S y0 + i)%nat by lia.
Qed.

(** The board [createInitialBoard] builds, cell by cell. *)
Lemma createInitialBoard_cells s :
  length (board (createInitialBoard s)) = GRID_WIDTH ∧
  nextId (createInitialBoard s) = (nextId s + GRID_HEIGHT * GRID_WIDTH)%nat ∧
  (∀ r, (r < nextId s)%nat → heap (createInitialBoard s) r = heap s r) ∧
  ∀ x, (x < GRID_WIDTH)%nat →
    board (createInitialBoard s) !! x
      = Some ((λ y, nextId s + y * GRID_WIDTH + x)%nat <$> seq 0 GRID_HEIGHT) ∧
    ∀ y, (y < GRID_HEIGHT)%nat →
      heap (createInitialBoard s) (nextId s + y * GRID_WIDTH + x)%nat
      = Circle (pick (nextId s + y * GRID_WIDTH + x)%nat) (Z.of_nat x) (Z.of_nat y) true.
Proof.
  unfold createInitialBoard.
  destruct (foldl _ _ (seq 0 GRID_HEIGHT)) as [b' s'] eqn:Hfold.
  destruct (createRows_spec GRID_HEIGHT 0 (replicate GRID_WIDTH []) s b' s')
    as (Hb' & Hn' & Hc'); [apply length_replicate|done|].
  destruct (createRows_heap GRID_HEIGHT 0 (replicate GRID_WIDTH []) s b' s')
    as (Hold & Hnew); [apply length_replicate|done|].
  destruct s' as [h n b sel sim lp rf run0 sc hs cp pe m tw]; simpl in *.
  do 3 (split; [done|]). intros x Hx. split.
  - by rewrite (Hc' x [] (lookup_replicate_2 _ _ _ Hx)).
  - intros y Hy. by rewrite (Hnew y x Hy Hx).
Qed.

(** The start of a round: the board has [GRID_WIDTH] columns of
    [GRID_HEIGHT] fresh live circles, the one in slot [y] of column [x]
    recording column [x] and row [y] and coloured by the generator; older
    circles are untouched, the chain is empty, the score and the preview
    counter are 0, no loop is open and the round runs.  The high score is
    kept. *)
Theorem startGame_board (s : scene) :
  length (board (startGame s)) = GRID_WIDTH ∧
  (∀ x y, (x < GRID_WIDTH)%nat → (y < GRID_HEIGHT)%nat →
     ∃ col c, board (startGame s) !! x = Some col ∧
              length col = GRID_HEIGHT ∧
              col !! y = Some c ∧
              (nextId s ≤ c < nextId (startGame s))%nat ∧
              heap (startGame s) c = Circle (pick c) (Z.of_nat x) (Z.of_nat y) true) ∧
  (∀ r, (r < nextId s)%nat → heap (startGame s) r = heap s r) ∧
  selectedCircles (startGame s) = [] ∧
  score (startGame s) = 0 ∧
  currentPointsToAdd (startGame s) = 0 ∧
  loopCreated (startGame s) = false ∧
  gameIsRunning (startGame s) = true ∧
  highScore (startGame s) = highScore s.
Proof.
  unfold startGame.
  set (s0 := startTimer (initializeGameVariables s)).
  assert (Hs0 : nextId s0 = nextId s ∧ heap s0 = heap s) by (by destruct s).
  destruct Hs0 as [Hn0 Hh0].
  destruct (createInitialBoard_cells s0) as (Hlen & Hnext & Hold & Hcells).
  pose proof (createInitialBoard_frame s0) as Hf.
  unfold sameControl in Hf. destruct_and!.
  rewrite Hn0 in *. rewrite Hh0 in *.
  split; [done|]. split.
  { intros x y Hx Hy. destruct (Hcells x Hx) as [Hcol Hheap].
    eexists _, _. split; [exact Hcol|].
    split; [by rewrite length_fmap, length_seq|].
    split; [by rewrite list_lookup_fmap, lookup_seq_lt|].
    split; [rewrite Hnext; nia|]. by apply Hheap. }
  split; [done|].
  assert (selectedCircles s0 = [] ∧ score s0 = 0 ∧ currentPointsToAdd s0 = 0 ∧
          loopCreated s0 = false ∧ gameIsRunning s0 = true ∧
          highScore s0 = highScore s) by (by destruct s).
  destruct_and!. repeat split; congruence.
Qed.

Lemma wfGrid_same s s' :
  board s' = board s → nextId s' = nextId s →
  (∀ c, gridX (heap s' c) = gridX (heap s c) ∧ gridY (heap s' c) = gridY (heap s c)) →
  wfGrid s → wfGrid s'.
Proof.
  intros Hb Hn Hh Hwf x col i c Hcol Hc. rewrite Hb in Hcol. rewrite Hn.
  destruct (Hh c) as [-> ->]. by eapply Hwf.
Qed.

Lemma createInitialBoard_grid s : wfGrid (createInitialBoard s).
Proof.
  destruct (createInitialBoard_cells s) as (Hlen & Hnext & _ & Hcells).
  intros x col i c Hcol Hc.
  assert (Hx : (x < GRID_WIDTH)%nat) by (rewrite <- Hlen; by eapply lookup_lt_Some).
  destruct (Hcells x Hx) as [Hcol' Hheap]. rewrite Hcol' in Hcol. injection Hcol as <-.
  apply list_lookup_fmap_Some in Hc as (y & -> & [-> Hy]%lookup_seq).
  simpl. rewrite (Hheap i Hy). simpl. split; [rewrite Hnext; nia|done].
Qed.

Lemma destroyAll_fields cs : ∀ h c,
  color (destroyAll cs h c) = color (h c) ∧
  gridX (destroyAll cs h c) = gridX (h c) ∧ gridY (destroyAll cs h c) = gridY (h c).
Proof.
  unfold destroyAll. induction cs as [|x cs IH]; intros h c; simpl; [done|].
  destruct (IH (<[x := destroy (h x)]> h) c) as (-> & -> & ->).
  destruct (decide (x = c)) as [<-|Hne].
  - by rewrite fn_lookup_insert.
  - by rewrite fn_lookup_insert_ne.
Qed.

(** Compaction keeps the positions: a survivor's row is raised by exactly
    the number of slots it falls, and a new circle is given the row of its
    slot. *)
Lemma updateColumn_grid column s s' :
  wfBoard s → wfGrid s → updateColumn column s = Some s' → wfGrid s'.
Proof.
  intros Hwf Hgrid Hup.
  assert (Hwf' : wfBoard s') by (by eapply updateColumn_wf).
  destruct (index (board s) column) as [col|] eqn:Hcol;
    [|by unfold updateColumn in Hup; rewrite Hcol in Hup].
  destruct (scanColumn_spec (heap s) col) as (h' & Heq & Hattr & Hout & Hfall).
  rewrite (updateColumn_eq column col s h' Hcol Heq) in Hup.
  injection Hup as <-.
  pose proof (index_Some _ _ _ Hcol) as Hrange.
  rewrite index_lookup in Hcol by lia.
  destruct (Hwf col) as (Hfull & Hnd & Hold); [by eapply list_elem_of_lookup_2|].
  pose proof (survivors_deadCount (heap s) col) as Hsd.
  set (gridYs := Z.of_nat <$> seq 0 (GRID_HEIGHT - length (survivors (heap s) col))) in *.
  assert (Hn : length gridYs = deadCount (heap s) col).
  { unfold gridYs. rewrite length_fmap, length_seq. lia. }
  intros x col' p c Hx Hp.
  assert (Hnd' : NoDup col').
  { destruct (Hwf' col') as (_ & ? & _); [by eapply list_elem_of_lookup_2|done]. }
  destruct s as [h n b sel sim lp rf run0 sc hs cp pe m tw]; simpl in *.
  destruct (decide (x = Z.to_nat column)) as [->|Hne].
  - rewrite list_lookup_insert_eq in Hx by lia. injection Hx as <-.
    destruct (decide (p < length gridYs)%nat) as [Hlt|Hge].
    + rewrite lookup_app_l in Hp by (by rewrite length_seq).
      apply lookup_seq in Hp as [-> _].
      destruct (lookup_lt_is_Some_2 gridYs p Hlt) as [y Hy].
      rewrite (spawned_at column gridYs n h' p y Hy). simpl.
      unfold gridYs in Hy. rewrite list_lookup_fmap in Hy.
      apply fmap_Some in Hy as (y' & [-> _]%lookup_seq & ->).
      split; [lia|]. split; [lia|done].
    + assert (Hc : c ∈ survivors h col).
      { rewrite lookup_app_r in Hp by (rewrite length_seq; lia).
        by eapply list_elem_of_lookup_2. }
      unfold survivors in Hc. apply list_elem_of_filter in Hc as [Hact Hc].
      apply list_elem_of_lookup in Hc as [i Hi].
      assert (Hslot : (seq n (length gridYs) ++ survivors h col)
                        !! (i + deadBelow h col i)%nat = Some c).
      { rewrite (slot_after_fall _ _ _ _ Hi Hact), <- Hn.
        rewrite lookup_app_r by (rewrite length_seq; lia). rewrite length_seq.
        replace (length gridYs + length (survivors h (take i col)) - length gridYs)%nat
          with (length (survivors h (take i col))) by lia.
        by apply filter_lookup. }
      assert (p = (i + deadBelow h col i)%nat) as -> by (by eapply NoDup_lookup).
      destruct (Hgrid (Z.to_nat column) col i c Hcol Hi) as (Hlt & Hgx & Hgy).
      simpl in *. rewrite spawned_below by done.
      destruct (Hattr c) as (_ & _ & ->). rewrite (Hfall Hnd i c Hi Hact).
      split; [lia|]. split; [done|lia].
  - rewrite list_lookup_insert_ne in Hx by done.
    destruct (Hgrid x col' p c Hx Hp) as (Hlt & Hgx & Hgy). simpl in *.
    rewrite spawned_below by done.
    assert (Hnot : c ∉ col).
    { intros [i Hi]%list_elem_of_lookup.
      destruct (Hgrid (Z.to_nat column) col i c Hcol Hi) as (_ & Hgx' & _).
      simpl in *. lia. }
    rewrite (Hout c Hnot). split; [lia|done].
Qed.

Lemma updateBoard_grid columns : ∀ s s',
  wfBoard s → wfGrid s → updateBoard columns s = Some s' → wfBoard s' ∧ wfGrid s'.
Proof.
  induction columns as [|x columns IH]; intros s s' Hwf Hgrid; simpl.
  - by intros [= <-].
  - destruct (updateColumn x s) as [s1|] eqn:Hx; [|done].
    apply IH; [by eapply updateColumn_wf|by eapply updateColumn_grid].
Qed.

Lemma step_grid e s s' :
  wfBoard s → wfGrid s → step e s = Some s' → wfGrid s'.
Proof.
  intros Hwf Hgrid Hstep. destruct e; simpl in Hstep.
  - destruct (pointerBodyEnabled s); [|by injection Hstep as <-].
    destruct (onOverlap_chainOk s c) as (s1 & Hs1 & Hh & Hb & _).
    rewrite Hs1 in Hstep. injection Hstep as <-.
    apply onOverlap_board in Hs1 as [_ Hn].
    apply (wfGrid_same s); [done..| |done]. by rewrite Hh.
  - injection Hstep as <-. apply (wfGrid_same s); [..|done];
      unfold onPointerDown; destruct s; simpl; by repeat case_match.
  - assert (Hh : heap s' = heap s).
    { revert Hstep. unfold onPointerUp, clearAllSelectedCircles, clearSet.
      destruct s; simpl. repeat case_match; by intros [= <-]. }
    apply onPointerUp_board in Hstep as [? ?].
    apply (wfGrid_same s); [done..| |done]. by rewrite Hh.
  - unfold onShrinkComplete in Hstep.
    destruct (shrinkTweens s !! k) as [[d cols [|c rest]]|];
      try by injection Hstep as <-.
    set (s2 := set_shrinkTweens _ _) in Hstep.
    assert (Hwf2 : wfBoard s2) by (apply (wfBoard_same s); [by destruct s..|done]).
    assert (Hgrid2 : wfGrid s2).
    { apply (wfGrid_same s); [by destruct s..| |done].
      intros c0. unfold s2. destruct s; simpl.
      destruct (decide (c = c0)) as [<-|Hne].
      - by rewrite fn_lookup_insert.
      - by rewrite fn_lookup_insert_ne. }
    destruct (Nat.eqb _ _); [|by injection Hstep as <-].
    destruct (updateBoard cols s2) as [s3|] eqn:Hup; [|done]. injection Hstep as <-.
    apply (wfGrid_same s3); [by destruct s3..|].
    by eapply updateBoard_grid.
  - injection Hstep as <-. intros x col i c Hcol.
    unfold onCountdownComplete in Hcol. destruct s; simpl in Hcol.
    destruct (_ >? _); simpl in Hcol; by rewrite lookup_nil in Hcol.
  - injection Hstep as <-. unfold onStartButton, startGame.
    apply (wfGrid_same (createInitialBoard (startTimer (initializeGameVariables s))));
      [by destruct (createInitialBoard _)..|].
    apply createInitialBoard_grid.
Qed.

(** In every scene reached from [create], the circle stored in slot [i] of
    column [x] of the board records [gridX = x] and [gridY = i]; so a circle
    occupies one slot of the board at most. *)
Theorem reachable_grid (es : list event) (s : scene) :
  run es create = Some s →
  (∀ x col i c, board s !! x = Some col → col !! i = Some c →
     gridX (heap s c) = Z.of_nat x ∧ gridY (heap s c) = Z.of_nat i) ∧
  (∀ x x' col col' i i' c,
     board s !! x = Some col → col !! i = Some c →
     board s !! x' = Some col' → col' !! i' = Some c →
     x = x' ∧ i = i').
Proof.
  assert (∀ s0, wfBoard s0 → wfGrid s0 → run es s0 = Some s → wfGrid s) as Hgen.
  { induction es as [|e es IH]; intros s0 Hwf Hgrid; simpl.
    - by intros [= <-].
    - destruct (step e s0) as [s1|] eqn:Hstep; [|done].
      apply IH; [by eapply step_wf|by eapply step_grid]. }
  intros Hrun.
  assert (Hgrid : wfGrid s).
  { apply (Hgen create); [| |done].
    - intros col Hcol. by apply elem_of_nil in Hcol.
    - intros x col i c Hcol. simpl in Hcol. by rewrite lookup_nil in Hcol. }
  split.
  - intros x col i c Hcol Hc. by destruct (Hgrid x col i c Hcol Hc) as (_ & ? & ?).
  - intros x x' col col' i i' c Hcol Hc Hcol' Hc'.
    destruct (Hgrid x col i c Hcol Hc) as (_ & Hx & Hy).
    destruct (Hgrid x' col' i' c Hcol' Hc') as (_ & Hx' & Hy'). lia.
Qed.

End GridProperties.

(** ** The chain and the preview counter along a gesture *)

Section GestureProperties.
Context {K : Constants}.

Lemma includes_elem l c : includes l c = true ↔ c ∈ l.
Proof.
  unfold includes. rewrite existsb_exists. split.
  - intros (x & Hx%list_elem_of_In & ->%Nat.eqb_eq). done.
  - intros Hc. exists c. rewrite <- list_elem_of_In. split; [done|apply Nat.eqb_refl].
Qed.

(** The four outcomes of an overlap callback. *)
Lemma onOverlap_cases c s s' :
  onOverlap c s = Some s' →
  s' = s
  ∨ (∃ l0 t, selectedCircles s = l0 ++ [t] ∧ last l0 = Some c ∧
             s' = updatePointsToBeAdded (-1)
                    (set_selectedCircles l0 (set_loopCreated false s)))
  ∨ ((c ∉ selectedCircles s) ∧ loopCreated s = false ∧ s' = addCircleToSelectedChain c s)
  ∨ (c ∈ selectedCircles s ∧ loopCreated s = false ∧ s' = handleLoopCreated c s).
Proof.
  unfold onOverlap.
  destruct (isValidNextCircle s c); [|intros [= <-]; by left].
  destruct (isBackTracking s c) eqn:Hbt.
  { apply isBackTracking_snoc in Hbt as (l0 & t & Hsel & Hlast).
    unfold removeCircleFromChain. intros Hs'. right; left. exists l0, t.
    do 2 (split; [done|]).
    destruct s; simpl in *; subst. rewrite last_snoc, removelast_last in Hs'.
    by injection Hs' as <-. }
  destruct (includes (selectedCircles s) c) eqn:Hin, (loopCreated s) eqn:Hlp;
    simpl; intros [= <-]; try by left.
  - right; right; right. by apply includes_elem in Hin.
  - right; right; left. split; [|done]. intros Hc%includes_elem. congruence.
Qed.


Lemma onOverlap_delta c s s' :
  onOverlap c s = Some s' →
  currentPointsToAdd s' - Z.of_nat (length (selectedCircles s'))
    = currentPointsToAdd s - Z.of_nat (length (selectedCircles s)) ∧
  (currentPointsToAdd s' < currentPointsToAdd s →
     (2 ≤ length (selectedCircles s))%nat) ∧
  score s' = score s ∧ highScore s' = highScore s ∧
  gameIsRunning s' = gameIsRunning s ∧
  boardRefillHappening s' = boardRefillHappening s ∧
  pointerBodyEnabled s' = pointerBodyEnabled s.
Proof.
  intros [->|[(l0 & t & Hsel & Hlast & ->)|[(_ & _ & ->)|(_ & _ & ->)]]]%onOverlap_cases.
  - repeat split; lia.
  - destruct s as [h n b sel sim lp rf run0 sc hs cp pe m tw]; simpl in *. subst sel.
    rewrite length_app. simpl. repeat split; try lia.
    intros _. destruct l0; [done|simpl; lia].
  - destruct s as [h n b sel sim lp rf run0 sc hs cp pe m tw]; simpl in *.
    rewrite length_app. simpl. repeat split; lia.
  - destruct s as [h n b sel sim lp rf run0 sc hs cp pe m tw]; simpl in *.
    rewrite length_app. simpl. repeat split; lia.
Qed.

(** Every touch moves the preview counter and the length of the chain by the
    same amount; so the counter is the length of the chain throughout a
    gesture that starts with both at 0. *)
Theorem preview_tracks_chain (cs : list nat) (s s' : scene) :
  touches cs s = Some s' →
  currentPointsToAdd s' - Z.of_nat (length (selectedCircles s'))
    = currentPointsToAdd s - Z.of_nat (length (selectedCircles s)) ∧
  (selectedCircles s = [] → currentPointsToAdd s = 0 →
     currentPointsToAdd s' = Z.of_nat (length (selectedCircles s'))).
Proof.
  revert s. induction cs as [|c cs IH]; intros s; simpl.
  - intros [= <-]. split; [done|]. by intros -> ->.
  - destruct (onOverlap c s) as [s1|] eqn:H1; [|done]. intros Hrest.
    apply onOverlap_delta in H1 as (Hd & _). destruct (IH s1 Hrest) as (Hd' & _).
    split; [lia|]. intros Hsel Hcp. rewrite Hsel, Hcp in Hd. simpl in Hd. lia.
Qed.

(** An overlap with the circle that is already the tail of the chain changes
    nothing, on a grid where no circle is its own neighbour: while the
    pointer rests on the last circle, the callback may fire at will. *)
Theorem tail_overlap_ignored (s : scene) (c : nat) :
  noSelfOffset →
  last (selectedCircles s) = Some c →
  onOverlap c s = Some s.
Proof.
  intros [Hr Hl] Hlast. unfold onOverlap, isValidNextCircle. rewrite Hlast.
  unfold isValidAdjacentCircle. rewrite !Z.sub_diag, Hr, Hl.
  by destruct (_ =? 0).
Qed.

Lemma isValidNextCircle_snoc s l p c :
  mutuallyInverse →
  selectedCircles s = l ++ [p] →
  isValidNextCircle s c = true →
  isValidNextCircle (addCircleToSelectedChain c s) p = true.
Proof.
  intros Hinv Hsel Hv. unfold isValidNextCircle in *. rewrite Hsel, last_snoc in Hv.
  apply andb_true_iff in Hv as [Hadj Hcol%Z.eqb_eq].
  destruct s as [h n b sel sim lp rf run0 sc hs cp pe m tw]; simpl in *.
  rewrite last_snoc, (Hinv _ _ Hadj), Hcol. simpl. apply Z.eqb_refl.
Qed.

(** Appending a circle and then touching the previous tail is a round trip:
    the scene is exactly what it was, preview counter included. *)
Theorem append_backtrack_roundtrip (s : scene) (l : list nat) (p c : nat) :
  mutuallyInverse →
  loopCreated s = false →
  selectedCircles s = l ++ [p] →
  isValidNextCircle s c = true →
  includes (selectedCircles s) c = false →
  ∃ s1, onOverlap c s = Some s1 ∧
        selectedCircles s1 = l ++ [p; c] ∧
        onOverlap p s1 = Some s.
Proof.
  intros Hinv Hlp Hsel Hv Hin.
  assert (Hbt : isBackTracking s c = false).
  { destruct (isBackTracking s c) eqn:Hbt; [|done].
    apply isBackTracking_snoc in Hbt as (l0 & t & Hsel' & Hlast).
    assert (c ∈ selectedCircles s) as Hc%includes_elem; [|congruence].
    rewrite Hsel'. apply elem_of_app. left.
    rewrite last_lookup in Hlast. by eapply list_elem_of_lookup_2. }
  exists (addCircleToSelectedChain c s). split.
  { unfold onOverlap. by rewrite Hv, Hbt, Hin, Hlp. }
  split.
  { destruct s; simpl in *. subst. by rewrite <- (assoc_L (++)). }
  rewrite (onOverlap_backtrack (addCircleToSelectedChain c s) (l ++ [p]) c p).
  - f_equal. destruct s as [h n b sel sim lp rf run0 sc hs cp pe m tw]; simpl in *.
    subst. f_equal. lia.
  - destruct s; simpl in *. by subst.
  - apply last_snoc.
  - by eapply isValidNextCircle_snoc.
Qed.

End GestureProperties.

(** ** Releases, the refill gate and the shrink latch *)

Section RefillProperties.
Context {K : Constants}.

Lemma noteColumn_NoDup h c cols : NoDup cols → NoDup (noteColumn h cols c).
Proof.
  intros Hnd. unfold noteColumn. destruct (existsb _ cols) eqn:E; [done|].
  apply NoDup_app. split; [done|]. split; [|apply NoDup_singleton].
  intros x Hx ->%list_elem_of_singleton.
  assert (existsb (Z.eqb (gridX (h c))) cols = true) as Ht; [|congruence].
  apply existsb_exists. exists (gridX (h c)).
  rewrite <- list_elem_of_In. split; [done|apply Z.eqb_refl].
Qed.

(** The columns handed to [updateBoard] are the columns of the cleared
    circles, each listed once. *)
Theorem columns_to_adjust (h : store) (sel : list nat) :
  NoDup (columnsOf h sel) ∧
  (∀ x, x ∈ columnsOf h sel ↔ ∃ c, c ∈ sel ∧ gridX (h c) = x) ∧
  (length (columnsOf h sel) ≤ length sel)%nat.
Proof.
  split; [|split; [apply columnsOf_elem|]].
  - unfold columnsOf.
    assert (∀ acc, NoDup acc → NoDup (foldl (noteColumn h) acc sel)) as Hgen.
    { induction sel as [|c sel IH]; intros acc Hacc; simpl; [done|].
      by apply IH, noteColumn_NoDup. }
    apply Hgen, NoDup_nil_2.
  - unfold columnsOf.
    assert (∀ acc, (length (foldl (noteColumn h) acc sel) ≤ length acc + length sel)%nat)
      as Hgen.
    { induction sel as [|c sel IH]; intros acc; simpl; [lia|].
      etrans; [apply IH|]. unfold noteColumn.
      destruct (existsb _ acc); rewrite ?length_app; simpl; lia. }
    apply (Hgen []).
Qed.

(** While a refill is pending the pointer is dead: after a release that
    commits, presses and overlaps leave the scene exactly as it is. *)
Theorem refill_freezes_pointer (s s1 : scene) (es : list event) :
  gameIsRunning s = true →
  (1 < length (selectedCircles s))%nat →
  onPointerUp s = Some s1 →
  Forall (λ e, pointerOnly e = true) es →
  boardRefillHappening s1 = true ∧ pointerBodyEnabled s1 = false ∧
  run es s1 = Some s1.
Proof.
  intros Hrun Hlen Hup Hes.
  assert (Hs1 : gameIsRunning s1 = true ∧ boardRefillHappening s1 = true ∧
                pointerBodyEnabled s1 = false).
  { revert Hup. unfold onPointerUp, clearAllSelectedCircles, clearSet.
    destruct s as [h n b sel sim lp rf run0 sc hs cp pe m tw]; simpl in *. subst run0.
    destruct sel as [|c [|c' sel]]; simpl in *; [lia..|].
    repeat case_match; by intros [= <-]. }
  destruct Hs1 as (Hr1 & Hrf1 & Hpe1). do 2 (split; [done|]).
  induction Hes as [|e es He _ IH]; [done|]. simpl.
  destruct e; try done; simpl.
  - by rewrite Hpe1.
  - unfold onPointerDown. by rewrite Hr1, Hrf1.
Qed.

(** A second release before the shrink tweens complete commits the same
    clear set again: its points are added a second time and a second batch
    of tweens is started. *)
Theorem release_twice (s : scene) (sel : list nat) :
  gameIsRunning s = true →
  (1 < length (selectedCircles s))%nat →
  clearSet s = Some sel →
  (1 < length sel)%nat →
  ∃ s1 s2,
    onPointerUp s = Some s1 ∧ onPointerUp s1 = Some s2 ∧
    score s1 = score s + pointsFor (Z.of_nat (length sel)) ∧
    score s2 = score s + 2 * pointsFor (Z.of_nat (length sel)) ∧
    shrinkTweens s2 =
      shrinkTweens s ++ [ShrinkBatch 0 (columnsOf (heap s) sel) sel;
                         ShrinkBatch 0 (columnsOf (heap s) sel) sel] ∧
    board s2 = board s.
Proof.
  intros Hrun Hlen Hsel Hlen'.
  assert (Hne : sel ≠ []) by (intros ->; simpl in Hlen'; lia).
  assert (Hup : ∀ t, gameIsRunning t = true → (1 < length (selectedCircles t))%nat →
                     onPointerUp t = clearAllSelectedCircles (set_pointerBodyEnabled false t)).
  { intros t Ht Hl. unfold onPointerUp. rewrite Ht.
    destruct t as [h n b sel0 sim lp rf run0 sc hs cp pe m tw]; simpl in *.
    destruct sel0 as [|c [|c' sel0]]; simpl in *; [lia|lia|done]. }
  rewrite (Hup s Hrun Hlen), (clearAllSelectedCircles_eq _ sel) by (by destruct s).
  set (s1 := set_shrinkTweens _ _).
  assert (Hs1 : gameIsRunning s1 = true ∧ selectedCircles s1 = sel ∧
                clearSet (set_pointerBodyEnabled false s1) = Some sel ∧
                heap s1 = heap s) by (by destruct s).
  destruct Hs1 as (Hr1 & Hsel1 & Hcs1 & Hh1).
  exists s1. eexists. split; [done|].
  rewrite (Hup s1 Hr1) by (by rewrite Hsel1).
  rewrite (clearAllSelectedCircles_eq _ sel Hcs1 Hne). split; [done|].
  unfold s1. destruct s as [h n b sel0 sim lp rf run0 sc hs cp pe m tw]; simpl in *.
  split; [done|]. split; [lia|]. split; [by rewrite <- (assoc_L (++))|done].
Qed.


Lemma scanColumn_all_live h col :
  (∀ c, c ∈ col → active (h c) = true) → scanColumn h col = (h, 0, reverse col).
Proof.
  unfold scanColumn. induction col as [|x col IH]; intros Hall; [done|].
  simpl. rewrite IH by (intros c Hc; apply Hall; by right).
  assert (Hx : active (h x) = true) by (apply Hall; by left).
  unfold scanSlot. rewrite Hx. simpl. by rewrite Hx, reverse_cons.
Qed.

Lemma updateColumn_all_live column col s :
  index (board s) column = Some col →
  (GRID_HEIGHT ≤ length col)%nat →
  (∀ c, c ∈ col → active (heap s c) = true) →
  updateColumn column s = Some (set_boardRefillHappening false s).
Proof.
  intros Hcol Hlen Hall. unfold updateColumn, addNewCirclesToColumn.
  rewrite Hcol, (scanColumn_all_live _ _ Hall), length_reverse, reverse_involutive.
  replace (Z.to_nat (Z.of_nat GRID_HEIGHT - Z.of_nat (length col))) with 0%nat by lia.
  pose proof (index_Some _ _ _ Hcol) as Hrange.
  rewrite index_lookup in Hcol by lia.
  destruct s as [h n b sel sim lp rf run0 sc hs cp pe m tw]; simpl in *.
  by rewrite (list_insert_id _ _ _ Hcol).
Qed.

(** Compaction is idempotent: compacting a column that has just been
    compacted changes nothing. *)
Theorem compaction_idempotent (s s1 : scene) (column : Z) (col : list nat) :
  index (board s) column = Some col →
  (length col ≤ GRID_HEIGHT)%nat →
  updateColumn column s = Some s1 →
  updateColumn column s1 = Some s1.
Proof.
  intros Hcol Hlen Hup.
  destruct (updateColumn_live s column col Hcol Hlen) as
    (s1' & new & Hup' & Hidx & _ & Hfull & Hlive & _).
  rewrite Hup in Hup'. injection Hup' as <-.
  rewrite (updateColumn_all_live column _ s1 Hidx) by (done || lia).
  f_equal.
  destruct (scanColumn_spec (heap s) col) as (h' & Heq & _).
  rewrite (updateColumn_eq column col s h' Hcol Heq) in Hup. injection Hup as <-.
  by destruct s.
Qed.

End RefillProperties.

(** ** The numbers of reachable scenes *)

Section CounterProperties.
Context {K : Constants}.

Lemma pointsFor_nonneg len : 0 ≤ len → 0 ≤ pointsFor len.
Proof. intros Hlen. unfold pointsFor. destruct (len >=? 10); lia. Qed.

Lemma updateColumn_refill column s s' :
  updateColumn column s = Some s' → boardRefillHappening s' = false.
Proof.
  intros Hup.
  destruct (index (board s) column) as [col|] eqn:Hcol;
    [|by unfold updateColumn in Hup; rewrite Hcol in Hup].
  destruct (scanColumn_spec (heap s) col) as (h' & Heq & _).
  rewrite (updateColumn_eq column col s h' Hcol Heq) in Hup.
  injection Hup as <-. by destruct s.
Qed.

Lemma updateBoard_refill columns : ∀ s s',
  updateBoard columns s = Some s' →
  boardRefillHappening s' = true → boardRefillHappening s = true.
Proof.
  induction columns as [|x columns IH]; intros s s'; simpl.
  - by intros [= <-].
  - destruct (updateColumn x s) as [s1|] eqn:Hx; [|done]. intros Hrest Ht.
    apply updateColumn_refill in Hx. specialize (IH _ _ Hrest Ht). congruence.
Qed.

Lemma step_countersOk e s s' : countersOk s → step e s = Some s' → countersOk s'.
Proof.
  intros (Hsc & Hhs & Hcp & Hgate & Hlen & Hend) Hstep. destruct e; simpl in Hstep.
  - destruct (pointerBodyEnabled s) eqn:Hpe; [|by injection Hstep as <-].
    apply onOverlap_delta in Hstep as (Hd & Hdec & Hs' & Hh' & Hr' & Hrf & Hp').
    unfold countersOk. rewrite Hs', Hh', Hr', Hrf, Hp'.
    assert (Hnr : boardRefillHappening s = false).
    { destruct (boardRefillHappening s); [|done]. by specialize (Hgate eq_refl). }
    specialize (Hlen Hnr).
    split; [done|]. split; [done|]. split; [lia|]. split; [by rewrite Hpe|].
    split; [intros _; lia|done].
  - injection Hstep as <-. unfold onPointerDown, countersOk.
    destruct s as [h n b sel sim lp rf run0 sc hs cp pe m tw]; simpl in *.
    destruct run0, rf; simpl; auto 10.
  - revert Hstep. unfold onPointerUp, clearAllSelectedCircles, clearSet, countersOk.
    destruct s as [h n b sel sim lp rf run0 sc hs cp pe m tw]; simpl in *.
    destruct run0; [|intros [= <-]; simpl; auto 10].
    destruct sel as [|c [|c' sel]]; simpl.
    + intros [= <-]. simpl. auto 10.
    + intros [= <-]. simpl. repeat split; auto; lia.
    + repeat case_match; intros [= <-]; simpl;
        repeat split; auto; try lia;
        match goal with |- 0 ≤ _ + pointsFor ?n => pose proof (pointsFor_nonneg n); lia end.
  - revert Hstep. unfold onShrinkComplete.
    destruct (shrinkTweens s !! k) as [[d cols [|c rest]]|];
      try (intros [= <-]; by repeat split).
    set (s2 := set_shrinkTweens _ _).
    assert (Hok2 : countersOk s2) by (unfold s2; destruct s; simpl in *; by repeat split).
    destruct (Nat.eqb _ _); [|by intros [= <-]].
    destruct (updateBoard cols s2) as [s3|] eqn:Hup; [|done]. intros [= <-].
    destruct Hok2 as (Hsc2 & Hhs2 & Hcp2 & Hgate2 & _ & Hend2).
    destruct (updateBoard_frame _ _ _ Hup) as [Hf _].
    pose proof (updateBoard_refill _ _ _ Hup) as Hrf.
    destruct Hf as (_ & _ & _ & Hr3 & Hs3 & Hh3 & Hc3 & Hp3 & _ & _).
    unfold countersOk.
    destruct s3 as [h3 n3 b3 sel3 sim3 lp3 rf3 run3 sc3 hs3 cp3 pe3 m3 tw3]; simpl in *.
    repeat split; try congruence; try lia.
    + intros Ht. rewrite Hp3. by apply Hgate2, Hrf.
    + intros Hr. rewrite Hs3, Hh3. apply Hend2. congruence.
  - injection Hstep as <-. unfold onCountdownComplete, countersOk.
    destruct s as [h n b sel sim lp rf run0 sc hs cp pe m tw]; simpl in *.
    destruct (sc >? hs) eqn:E; simpl; repeat split; auto; lia.
  - injection Hstep as <-. unfold onStartButton, startGame.
    pose proof (createInitialBoard_frame (startTimer (initializeGameVariables s))) as Hf.
    assert (Hrf : boardRefillHappening
                    (createInitialBoard (startTimer (initializeGameVariables s))) = false).
    { unfold createInitialBoard. destruct (foldl _ _ _) as [b' s1] eqn:Hfold.
      assert (∀ ys st, boardRefillHappening
                (foldl (λ st y, foldl (createCell y) st (seq 0 GRID_WIDTH)) st ys).2
              = boardRefillHappening st.2) as Hrows.
      { assert (∀ y xs st, boardRefillHappening (foldl (createCell y) st xs).2
                           = boardRefillHappening st.2) as Hrow.
        { intros y xs. induction xs as [|x xs IH]; intros [b0 s0]; simpl; [done|].
          rewrite IH. by destruct s0. }
        induction ys as [|y ys IH]; intros st; simpl; [done|]. by rewrite IH, Hrow. }
      specialize (Hrows (seq 0 GRID_HEIGHT)
                    (replicate GRID_WIDTH [], startTimer (initializeGameVariables s))).
      rewrite Hfold in Hrows. simpl in Hrows.
      destruct s1; simpl in *. rewrite Hrows. by destruct s. }
    unfold sameControl in Hf. destruct_and!. unfold countersOk.
    destruct (createInitialBoard _); simpl in *. subst.
    destruct s as [h n b sel sim lp rf run0 sc hs cp pe m tw]; simpl in *.
    repeat split; try done; try lia.
Qed.

(** In every scene reached from [create]: the score, the high score and the
    preview counter are not negative; the pointer body is disabled while a
    refill is pending; outside a refill the preview counter is at least the
    length of the chain; and between rounds the high score is at least the
    score. *)
Theorem reachable_counters (es : list event) (s : scene) :
  run es create = Some s →
  0 ≤ score s ∧ 0 ≤ highScore s ∧ 0 ≤ currentPointsToAdd s ∧
  (boardRefillHappening s = true → pointerBodyEnabled s = false) ∧
  (boardRefillHappening s = false →
     Z.of_nat (length (selectedCircles s)) ≤ currentPointsToAdd s) ∧
  (gameIsRunning s = false → score s ≤ highScore s).
Proof.
  assert (∀ s0, countersOk s0 → run es s0 = Some s → countersOk s) as Hgen.
  { induction es as [|e es IH]; intros s0 Hok; simpl.
    - by intros [= <-].
    - destruct (step e s0) as [s1|] eqn:Hstep; [|done].
      apply IH. by eapply step_countersOk. }
  intros Hrun. apply (Hgen create); [|done].
  unfold countersOk. simpl. repeat split; done.
Qed.

End CounterProperties.

(** ** A release, from the chain to the refilled board *)

Section ClearProperties.
Context {K : Constants}.

Lemma destroyAll_dead_inv cs : ∀ h c,
  active (destroyAll cs h c) = false → c ∈ cs ∨ active (h c) = false.
Proof.
  unfold destroyAll. induction cs as [|x cs IH]; intros h c Hc; simpl in *; [by right|].
  destruct (decide (x = c)) as [<-|Hne]; [left; by left|].
  destruct (IH _ _ Hc) as [?|Hd]; [left; by right|].
  rewrite fn_lookup_insert_ne in Hd by done. by right.
Qed.

(** Compaction leaves the liveness of the circles that exist as it is. *)
Lemma updateColumn_active_old column s s' c :
  updateColumn column s = Some s' → (c < nextId s)%nat →
  active (heap s' c) = active (heap s c) ∧ (nextId s ≤ nextId s')%nat.
Proof.
  intros Hup Hc.
  destruct (index (board s) column) as [col|] eqn:Hcol;
    [|by unfold updateColumn in Hup; rewrite Hcol in Hup].
  destruct (scanColumn_spec (heap s) col) as (h' & Heq & Hattr & _).
  rewrite (updateColumn_eq column col s h' Hcol Heq) in Hup. injection Hup as <-.
  destruct s as [h n b sel sim lp rf run0 sc hs cp pe m tw]; simpl in *.
  rewrite spawned_below by done. destruct (Hattr c) as [-> _]. split; [done|lia].
Qed.

Lemma updateBoard_active_old columns : ∀ s s' c,
  updateBoard columns s = Some s' → (c < nextId s)%nat →
  active (heap s' c) = active (heap s c).
Proof.
  induction columns as [|x columns IH]; intros s s' c; simpl.
  - by intros [= <-].
  - destruct (updateColumn x s) as [s1|] eqn:Hx; [|done]. intros Hrest Hc.
    destruct (updateColumn_active_old _ _ _ c Hx Hc) as [<- Hn].
    apply IH; [done|lia].
Qed.

Lemma updateBoard_refill_done columns : ∀ s s',
  columns ≠ [] → updateBoard columns s = Some s' → boardRefillHappening s' = false.
Proof.
  induction columns as [|x columns IH]; intros s s' Hne; simpl; [done|].
  destruct (updateColumn x s) as [s1|] eqn:Hx; [|done].
  destruct columns as [|y columns].
  - simpl. intros [= <-]. by eapply updateColumn_refill.
  - by apply IH.
Qed.

Lemma run_wfBoard es : ∀ s0 s, wfBoard s0 → run es s0 = Some s → wfBoard s.
Proof.
  induction es as [|e es IH]; intros s0 s Hwf; simpl.
  - by intros [= <-].
  - destruct (step e s0) as [s1|] eqn:Hstep; [|done].
    apply IH. by eapply step_wf.
Qed.

Lemma run_wfGrid es : ∀ s0 s,
  wfBoard s0 → wfGrid s0 → run es s0 = Some s → wfGrid s.
Proof.
  induction es as [|e es IH]; intros s0 s Hwf Hgrid; simpl.
  - by intros [= <-].
  - destruct (step e s0) as [s1|] eqn:Hstep; [|done].
    apply IH; [by eapply step_wf|by eapply step_grid].
Qed.

(** From a full board of live circles: when a chain of more than one board
    circle is released and its shrink tweens complete, the chain is empty,
    the refill is over, and the board has its columns full again, of live
    circles only; none of the cleared circles is left on it. *)
Theorem clear_refills_board (s : scene) (sel : list nat) :
  wfBoard s →
  wfGrid s →
  (∀ c, c ∈ concat (board s) → active (heap s c) = true) →
  gameIsRunning s = true →
  (1 < length (selectedCircles s))%nat →
  clearSet s = Some sel →
  sel ≠ [] →
  (∀ c, c ∈ sel → c ∈ concat (board s)) →
  ∃ s1 s2,
    onPointerUp s = Some s1 ∧
    runShrinkTweens (length sel) (length (shrinkTweens s)) s1 = Some s2 ∧
    selectedCircles s2 = [] ∧
    boardRefillHappening s2 = false ∧
    length (board s2) = length (board s) ∧
    (∀ col, col ∈ board s2 →
       length col = GRID_HEIGHT ∧ ∀ c, c ∈ col → active (heap s2 c) = true) ∧
    (∀ c, c ∈ sel → active (heap s2 c) = false ∧ c ∉ concat (board s2)).
Proof.
  intros Hwf Hgrid Hlive Hrun Hlen Hsel Hne Hon.
  assert (Hup : onPointerUp s = clearAllSelectedCircles (set_pointerBodyEnabled false s)).
  { unfold onPointerUp. rewrite Hrun.
    destruct s as [h n b sel0 sim lp rf run0 sc hs cp pe m tw]; simpl in *.
    destruct sel0 as [|c [|c' sel0]]; simpl in *; [lia|lia|done]. }
  rewrite Hup, (clearAllSelectedCircles_eq _ sel) by (by destruct s).
  set (s1 := set_shrinkTweens _ _).
  set (batch := ShrinkBatch 0 (columnsOf (heap s) sel) sel).
  assert (Hs1 : shrinkTweens s1 = shrinkTweens s ++ [batch] ∧ selectedCircles s1 = sel)
    by (by destruct s).
  destruct Hs1 as [Htw Hsel1].
  set (sd := shrunk (length (shrinkTweens s)) batch s1).
  assert (Hsd : board sd = board s ∧ heap sd = destroyAll sel (heap s) ∧
                nextId sd = nextId s) by (by destruct s).
  destruct Hsd as (Hbd & Hhd & Hnd).
  assert (Hpos : ∀ c, c ∈ sel →
            ∃ j col, board s !! j = Some col ∧ c ∈ col ∧
                     gridX (heap s c) = Z.of_nat j ∧ (c < nextId s)%nat).
  { intros c Hc. apply Hon, elem_of_concat in Hc as (col & [j Hj]%list_elem_of_lookup & Hc).
    pose proof Hc as [i Hi]%list_elem_of_lookup.
    destruct (Hgrid j col i c Hj Hi) as (? & ? & _). by exists j, col. }
  destruct (updateBoard_live (columnsOf (heap s) sel) sd) as (s2 & Hs2 & Hlen2 & Hall).
  { intros col Hcol. rewrite Hbd in Hcol. by destruct (Hwf col Hcol). }
  { intros x (c & Hc & <-)%columnsOf_elem. rewrite Hbd.
    destruct (Hpos c Hc) as (j & col & Hj & _ & -> & _).
    apply lookup_lt_Some in Hj. lia. }
  { intros j col c Hj Hc Hd. rewrite Hbd in Hj. rewrite Hhd in Hd.
    apply destroyAll_dead_inv in Hd as [Hd|Hd].
    - apply columnsOf_elem. exists c. split; [done|].
      pose proof Hc as [i Hi]%list_elem_of_lookup.
      by destruct (Hgrid j col i c Hj Hi) as (_ & ? & _).
    - rewrite Hlive in Hd; [done|]. apply elem_of_concat. exists col.
      split; [by eapply list_elem_of_lookup_2|done]. }
  exists s1, (set_selectedCircles [] s2). split; [done|].
  split.
  { rewrite (runShrinkTweens_all sel (length (shrinkTweens s)) 0 (columnsOf (heap s) sel) s1).
    - fold batch. fold sd. by rewrite Hs2.
    - rewrite Htw. by rewrite lookup_app_r, Nat.sub_diag.
    - by rewrite Hsel1.
    - done. }
  assert (Hcols : columnsOf (heap s) sel ≠ []).
  { destruct sel as [|c sel]; [done|]. intros Hnil.
    assert (gridX (heap s c) ∈ columnsOf (heap s) (c :: sel)) as Hin
      by (apply columnsOf_elem; exists c; split; [by left|done]).
    rewrite Hnil in Hin. by apply elem_of_nil in Hin. }
  pose proof (updateBoard_refill_done _ _ _ Hcols Hs2) as Hrf.
  assert (Hdead : ∀ c, c ∈ sel → active (heap s2 c) = false).
  { intros c Hc. destruct (Hpos c Hc) as (_ & _ & _ & _ & _ & Hlt).
    rewrite (updateBoard_active_old _ _ _ c Hs2) by (by rewrite Hnd).
    rewrite Hhd. apply destroyAll_dead. by left. }
  rewrite Hbd in Hlen2.
  destruct s2 as [h2 n2 b2 sel2 sim2 lp2 rf2 run2 sc2 hs2 cp2 pe2 m2 tw2]; simpl in *.
  do 4 (split; [done|]). intros c Hc. split; [by apply Hdead|].
  intros (col & Hcol & Hin)%elem_of_concat.
  destruct (Hall col Hcol) as [_ Hact]. specialize (Hdead c Hc).
  rewrite (Hact c Hin) in Hdead. done.
Qed.

End ClearProperties.

(** ** The display *)

Section DisplayProperties.
Context {K : Constants}.

Lemma setPointsToBeAddedText_score n s d d' :
  setPointsToBeAddedText n s d = Some d' → scoreBoardText d' = scoreBoardText d.
Proof.
  unfold setPointsToBeAddedText. repeat case_match; by intros [= <-].
Qed.

Lemma setPointsToBeAddedText_again n s d d' :
  setPointsToBeAddedText n s d = Some d' → setPointsToBeAddedText n s d' = Some d'.
Proof.
  unfold setPointsToBeAddedText. repeat case_match; by intros [= <-].
Qed.

(** An overlap callback either changes nothing or ends with the call of
    [setPointsToBeAddedText] on the scene it returns; and that call never
    throws there. *)
Lemma onOverlapShown_cases c s d :
  match onOverlap c s with
  | None => onOverlapShown c (s, d) = None
  | Some s' =>
      onOverlapShown c (s, d) = Some (s', d) ∧ s' = s
      ∨ ∃ d', onOverlapShown c (s, d) = Some (s', d') ∧
              setPointsToBeAddedText (currentPointsToAdd s') s' d = Some d'
  end.
Proof.
  unfold onOverlap, onOverlapShown. simpl.
  destruct (isValidNextCircle s c); [|by left].
  destruct (isBackTracking s c).
  { unfold removeCircleFromChain, removeCircleFromChainShown. simpl.
    destruct s as [h n b sel sim lp rf run0 sc hs cp pe m tw]; simpl.
    destruct (last sel); [|done]. right.
    unfold updatePointsToBeAddedShown, setPointsToBeAddedText. simpl.
    destruct (_ <=? 1); eauto. }
  destruct (includes (selectedCircles s) c), (loopCreated s) eqn:Hlp; simpl;
    try by left.
  - right. unfold handleLoopCreatedShown, handleLoopCreated,
      addCircleToSelectedChainShown, updatePointsToBeAddedShown, setPointsToBeAddedText.
    destruct s as [h n b sel sim lp rf run0 sc hs cp pe m tw]; simpl.
    destruct (_ <=? 1); eauto.
  - right. unfold addCircleToSelectedChainShown, updatePointsToBeAddedShown,
      setPointsToBeAddedText.
    destruct s as [h n b sel sim lp rf run0 sc hs cp pe m tw]; simpl in *. subst lp.
    destruct (_ <=? 1); eauto.
Qed.

Lemma touchesShown_scene cs : ∀ s d, fst <$> touchesShown cs (s, d) = touches cs s.
Proof.
  induction cs as [|c cs IH]; intros s d; simpl; [done|].
  pose proof (onOverlapShown_cases c s d) as Hc.
  destruct (onOverlap c s) as [s'|]; [|by rewrite Hc].
  destruct Hc as [[-> _]|(d' & -> & _)]; apply IH.
Qed.

Lemma touchesShown_previewShown cs : ∀ g g',
  previewShown g → touchesShown cs g = Some g' → previewShown g'.
Proof.
  induction cs as [|c cs IH]; intros [s d] g' Hg; simpl; [by intros [= <-]|].
  pose proof (onOverlapShown_cases c s d) as Hc.
  destruct (onOverlap c s) as [s'|]; [|by rewrite Hc].
  destruct Hc as [[-> ->]|(d' & -> & Hd')]; apply IH; [done|].
  unfold previewShown. simpl. by eapply setPointsToBeAddedText_again.
Qed.

Lemma touches_delta cs : ∀ s s',
  touches cs s = Some s' →
  currentPointsToAdd s' - Z.of_nat (length (selectedCircles s'))
    = currentPointsToAdd s - Z.of_nat (length (selectedCircles s)).
Proof.
  induction cs as [|c cs IH]; intros s s'; simpl; [by intros [= <-]|].
  destruct (onOverlap c s) as [s1|] eqn:H1; [|done]. intros Hrest.
  apply onOverlap_delta in H1 as (Hd & _). specialize (IH s1 s' Hrest). lia.
Qed.

(** [pointerup] with the display, for a chain of more than one circle. *)
Lemma onPointerUpShown_commit s d sel :
  gameIsRunning s = true →
  (1 < length (selectedCircles s))%nat →
  clearSet s = Some sel → sel ≠ [] →
  ∃ s', onPointerUp s = Some s' ∧
        score s' = score s + pointsFor (Z.of_nat (length sel)) ∧
        gameIsRunning s' = true ∧
        onPointerUpShown (s, d)
          = Some (s', Display "" ("Score: " +:+ pretty (score s'))).
Proof.
  intros Hrun Hlen Hsel Hne.
  unfold onPointerUp, onPointerUpShown, clearAllSelectedCircles,
    clearAllSelectedCirclesShown, resetPointsToBeAddedShown, addPointsShown. simpl.
  destruct s as [h n b sel0 sim lp rf run0 sc hs cp pe m tw]; simpl in *. subst run0.
  destruct sel0 as [|c [|c' sel0]]; simpl in *; [lia..|].
  unfold clearSet in *. simpl in *. rewrite Hsel.
  destruct sel as [|x sel]; [done|]. simpl.
  eexists. split; [done|]. simpl. done.
Qed.

(** During the first gesture after the preview counter was reset, the
    preview is blank for a chain of at most one circle; for a longer chain
    it shows the length of the set a release would clear, with the mark X2
    from 10 on; and that release adds this number of points, doubled exactly
    when the mark is shown, blanks the preview and shows the new score. *)
Theorem preview_matches_award (s0 : scene) (d0 : display) (cs : list nat)
    (s : scene) (d : display) :
  selectedCircles s0 = [] →
  currentPointsToAdd s0 = 0 →
  loopCreated s0 = false →
  pointsToBeAddedText d0 = "" →
  touchesShown cs (s0, d0) = Some (s, d) →
  ((length (selectedCircles s) ≤ 1)%nat → pointsToBeAddedText d = "") ∧
  ((1 < length (selectedCircles s))%nat →
     ∀ sel, clearSet s = Some sel →
       pointsToBeAddedText d = previewText (Z.of_nat (length sel)) ∧
       (sel ≠ [] → gameIsRunning s = true →
          ∃ s' d', onPointerUpShown (s, d) = Some (s', d') ∧
                   score s' = score s + (if Z.of_nat (length sel) >=? 10
                                         then Z.of_nat (length sel) * 2
                                         else Z.of_nat (length sel)) ∧
                   pointsToBeAddedText d' = "" ∧
                   scoreBoardText d' = "Score: " +:+ pretty (score s'))).
Proof.
  intros Hsel0 Hcp0 Hlp0 Hd0 Hto.
  assert (Hshown : previewShown (s, d)).
  { apply (touchesShown_previewShown cs (s0, d0)); [|done].
    unfold previewShown, setPointsToBeAddedText. simpl. rewrite Hcp0. simpl.
    destruct d0; simpl in *. by subst. }
  assert (Hcp : currentPointsToAdd s = Z.of_nat (length (selectedCircles s))).
  { pose proof (touchesShown_scene cs s0 d0) as Hsc. rewrite Hto in Hsc. simpl in Hsc.
    symmetry in Hsc. apply touches_delta in Hsc. rewrite Hsel0, Hcp0 in Hsc.
    simpl in Hsc. lia. }
  unfold previewShown, setPointsToBeAddedText in Hshown. simpl in Hshown.
  rewrite Hcp in Hshown. split.
  - intros Hlen. rewrite (proj2 (Z.leb_le _ _)) in Hshown by lia.
    by injection Hshown as <-.
  - intros Hlen sel Hclear. rewrite (proj2 (Z.leb_gt _ _)) in Hshown by lia.
    unfold clearSet in Hclear. split.
    + destruct (loopCreated s).
      * rewrite Hclear in Hshown. by injection Hshown as <-.
      * injection Hclear as <-. by injection Hshown as <-.
    + intros Hne Hrun.
      destruct (onPointerUpShown_commit s d sel Hrun Hlen Hclear Hne)
        as (s' & _ & Hsc & _ & ->).
      eexists _, _. split; [done|]. by repeat split.
Qed.

Lemma stepShown_scoreShown e g g' : scoreShown g → stepShown e g = Some g' → scoreShown g'.
Proof.
  destruct g as [s d]. unfold scoreShown. simpl. intros Hg Hstep.
  destruct e; simpl in Hstep.
  - destruct (pointerBodyEnabled s); [|by injection Hstep as <-].
    pose proof (onOverlapShown_cases c s d) as Hc.
    destruct (onOverlap c s) as [s'|] eqn:Hs'; [|congruence].
    apply onOverlap_delta in Hs' as (_ & _ & Hsc & _ & Hr & _).
    destruct Hc as [[Hc _]|(d' & Hc & Hd')]; rewrite Hc in Hstep;
      injection Hstep as <-; simpl; rewrite Hsc, Hr; [done|].
    by rewrite (setPointsToBeAddedText_score _ _ _ _ Hd').
  - injection Hstep as <-. simpl. unfold onPointerDown.
    destruct s; simpl in *. by repeat case_match.
  - revert Hstep. unfold onPointerUpShown, clearAllSelectedCirclesShown,
      resetPointsToBeAddedShown, addPointsShown, clearSet. simpl.
    destruct s as [h n b sel sim lp rf run0 sc hs cp pe m tw]; simpl in *.
    destruct run0; [|by intros [= <-]].
    destruct sel as [|c [|c' sel]]; simpl; [by intros [= <-]..|].
    repeat case_match; by intros [= <-].
  - destruct (onShrinkComplete k s) as [s1|] eqn:Hs1; [|done]. injection Hstep as <-.
    simpl. revert Hs1. unfold onShrinkComplete.
    destruct (shrinkTweens s !! k) as [[d0 cols [|c rest]]|];
      try by intros [= <-].
    set (s2 := set_shrinkTweens _ _).
    assert (Hs2 : score s2 = score s ∧ gameIsRunning s2 = gameIsRunning s)
      by (by destruct s).
    destruct Hs2 as [Hsc2 Hr2].
    destruct (Nat.eqb _ _); [|intros [= <-]; by rewrite Hsc2, Hr2].
    destruct (updateBoard cols s2) as [s3|] eqn:Hup; [|done]. intros [= <-].
    destruct (updateBoard_frame _ _ _ Hup) as [Hf _].
    destruct Hf as (_ & _ & _ & Hr3 & Hs3 & _).
    destruct s3; simpl in *. by rewrite Hs3, Hr3, Hsc2, Hr2.
  - revert Hstep. unfold onCountdownCompleteShown, clearPreviousGameShown, clearAllText.
    destruct s as [h n b sel sim lp rf run0 sc hs cp pe m tw]; simpl.
    intros [= <-]. simpl. by destruct (_ >? _).
  - injection Hstep as <-. unfold onStartButtonShown, startGameShown. simpl.
    pose proof (createInitialBoard_frame (startTimer (initializeGameVariables s))) as Hf.
    destruct Hf as (_ & _ & _ & Hr & Hs & _).
    destruct (createInitialBoard _); simpl in *. rewrite Hr, Hs. by destruct s.
Qed.

(** Whatever is played, the score board shows the current score while a
    round runs and is blank between rounds. *)
Theorem scoreboard_shows_score (es : list event) (s : scene) (d : display) :
  runShown es createShown = Some (s, d) →
  scoreBoardText d = if gameIsRunning s then "Score: " +:+ pretty (score s) else "".
Proof.
  assert (∀ g, scoreShown g → runShown es g = Some (s, d) → scoreShown (s, d)) as Hgen.
  { induction es as [|e es IH]; intros g Hg; simpl.
    - by intros [= <-].
    - destruct (stepShown e g) as [g1|] eqn:Hstep; [|done].
      apply IH. by eapply stepShown_scoreShown. }
  intros Hrun. by apply (Hgen createShown).
Qed.

(** The display never makes a handler throw, and the scene a handler leaves
    is the same with or without the display. *)
Theorem display_transparent (e : event) (s : scene) (d : display) :
  fst <$> stepShown e (s, d) = step e s.
Proof.
  destruct e; simpl.
  - destruct (pointerBodyEnabled s); [|done].
    pose proof (onOverlapShown_cases c s d) as Hc.
    destruct (onOverlap c s) as [s'|]; [|by rewrite Hc].
    by destruct Hc as [[-> _]|(d' & -> & _)].
  - done.
  - unfold onPointerUpShown, onPointerUp, clearAllSelectedCirclesShown,
      clearAllSelectedCircles, resetPointsToBeAddedShown, addPointsShown, clearSet. simpl.
    destruct s as [h n b sel sim lp rf run0 sc hs cp pe m tw]; simpl.
    destruct run0; [|done].
    destruct sel as [|c [|c' sel]]; simpl; [done..|].
    by repeat case_match.
  - by destruct (onShrinkComplete k s).
  - unfold onCountdownCompleteShown, onCountdownComplete, clearPreviousGameShown,
      clearPreviousGame, clearAllText.
    destruct s as [h n b sel sim lp rf run0 sc hs cp pe m tw]; simpl.
    by destruct (_ >? _).
  - done.
Qed.


End DisplayProperties.

(** ** Firework emitters *)

Lemma to_hex_int_nonnil (n : Z) :
  Z.to_hex_int n ≠ Hexadecimal.Pos Hexadecimal.Nil ∧
  Z.to_hex_int n ≠ Hexadecimal.Neg Hexadecimal.Nil.
Proof.
  destruct n as [|p|p]; simpl; (split; [|try done]); try done.
  - intros [= Hp]. by apply (Unsigned.to_uint_nonnil p).
  - intros [= Hp]. by apply (Unsigned.to_uint_nonnil p).
Qed.

Lemma toString16_inj (a b : Z) : toString16 a = toString16 b → a = b.
Proof.
  unfold toString16. intros Heq.
  destruct (to_hex_int_nonnil a) as [Ha1 Ha2], (to_hex_int_nonnil b) as [Hb1 Hb2].
  pose proof (NilZero.isi _ Ha1 Ha2) as Hia. pose proof (NilZero.isi _ Hb1 Hb2) as Hib.
  rewrite Heq, Hib in Hia. injection Hia as Hab.
  rewrite <- (HexadecimalZ.of_to a), <- (HexadecimalZ.of_to b). by rewrite Hab.
Qed.

Lemma textureKey_inj (a b : Z) : textureKey a = textureKey b → a = b.
Proof.
  unfold textureKey. intros Heq. apply toString16_inj.
  by apply (inj (String.app "circleParticle_")) in Heq.
Qed.

Lemma getFireworkParticles_ok color v :
  vfxOk v → vfxOk (getFireworkParticles color v).2.
Proof.
  intros Hok. unfold getFireworkParticles.
  destruct (emitters v !! textureKey color) as [e|] eqn:Hk; [done|].
  intros k e Hke. simpl in *.
  destruct (decide (textureKey color = k)) as [<-|Hne].
  - rewrite lookup_insert_eq in Hke. injection Hke as <-. split; [lia|].
    intros k' Hk'. destruct (decide (textureKey color = k')) as [|Hne']; [done|].
    rewrite lookup_insert_ne in Hk' by done. destruct (Hok k' _ Hk') as [? _]. lia.
  - rewrite lookup_insert_ne in Hke by done. destruct (Hok k e Hke) as [Hlt Huniq].
    split; [lia|]. intros k' Hk'.
    destruct (decide (textureKey color = k')) as [<-|Hne'].
    + rewrite lookup_insert_eq in Hk'. injection Hk' as <-. lia.
    + rewrite lookup_insert_ne in Hk' by done. by apply Huniq.
Qed.

(** The emitter cache: a colour is given an emitter the first time it is
    asked for and the same emitter, with nothing created, from then on; and
    two colours share an emitter only if they are the same colour. *)
Theorem emitter_cache (a b : Z) (v : vfx) :
  vfxOk v →
  getFireworkParticles a (getFireworkParticles a v).2
    = ((getFireworkParticles a v).1, (getFireworkParticles a v).2) ∧
  (emitterCount v ≤ emitterCount (getFireworkParticles a v).2 ≤ S (emitterCount v))%nat ∧
  ((getFireworkParticles b (getFireworkParticles a v).2).1 = (getFireworkParticles a v).1
   ↔ a = b).
Proof.
  intros Hok.
  assert (Hget : emitters (getFireworkParticles a v).2 !! textureKey a
                 = Some (getFireworkParticles a v).1).
  { unfold getFireworkParticles.
    destruct (emitters v !! textureKey a) as [e|] eqn:Hk; [done|].
    simpl. apply lookup_insert_eq. }
  pose proof (getFireworkParticles_ok a v Hok) as Hok1.
  split; [|split].
  - unfold getFireworkParticles at 1. by rewrite Hget.
  - unfold getFireworkParticles.
    destruct (emitters v !! textureKey a); simpl; lia.
  - split; [|intros <-; unfold getFireworkParticles at 1; by rewrite Hget].
    set (v1 := (getFireworkParticles a v).2) in *.
    set (e1 := (getFireworkParticles a v).1) in *.
    unfold getFireworkParticles.
    destruct (emitters v1 !! textureKey b) as [e|] eqn:Hk; simpl.
    + intros ->. destruct (Hok1 _ _ Hget) as [_ Huniq].
      symmetry. apply textureKey_inj. by apply Huniq.
    + intros Heq. destruct (Hok1 _ _ Hget) as [Hlt _]. lia.
Qed.

Lemma commitFireworks_few h sel v :
  Z.of_nat (length sel) < 10 → commitFireworks h sel v = v.
Proof.
  intros Hlen. unfold commitFireworks.
  destruct (Z.of_nat (length sel) >=? 10) eqn:E; [lia|].
  clear. revert v. induction sel as [|c sel IH]; intros v; simpl; [done|apply IH].
Qed.

(** The fireworks of a commit.  Below 10 cleared circles there are none.
    From 10 on, when the cleared circles have one colour (as the circles of
    a chain and of a similar-colour set have), every one of them gets a
    firework, in order, all from the emitter of that colour, and at most one
    emitter is created. *)
Theorem commit_fireworks (h : store) (sel : list nat) (col : Z) (v : vfx) :
  (∀ c, c ∈ sel → color (h c) = col) →
  (Z.of_nat (length sel) < 10 → commitFireworks h sel v = v) ∧
  (10 ≤ Z.of_nat (length sel) →
     emissions (commitFireworks h sel v)
       = emissions v ++ ((λ c, ((getFireworkParticles col v).1, c)) <$> sel) ∧
     emitters (commitFireworks h sel v) = emitters (getFireworkParticles col v).2 ∧
     (emitterCount (commitFireworks h sel v) ≤ S (emitterCount v))%nat).
Proof.
  intros Hmono. split; [apply commitFireworks_few|]. intros Hlen.
  unfold commitFireworks. rewrite (proj2 (Z.geb_le _ _)) by lia.
  assert (Hstep : ∀ w c, color (h c) = col →
            emitters w !! textureKey col = Some (getFireworkParticles col v).1 →
            createFireworkParticles h c w
            = Vfx (emitters w) (emitterCount w)
                (emissions w ++ [((getFireworkParticles col v).1, c)])).
  { intros w c Hc Hw. unfold createFireworkParticles, getFireworkParticles at 1.
    by rewrite Hc, Hw. }
  assert (Hrest : ∀ l w,
            (∀ c, c ∈ l → color (h c) = col) →
            emitters w !! textureKey col = Some (getFireworkParticles col v).1 →
            foldl (λ v0 c, createFireworkParticles h c v0) w l
            = Vfx (emitters w) (emitterCount w)
                (emissions w ++ ((λ c, ((getFireworkParticles col v).1, c)) <$> l))).
  { induction l as [|c l IH]; intros w Hl Hw; simpl.
    - rewrite app_nil_r. by destruct w.
    - rewrite (Hstep w c) by (done || apply Hl; by left).
      rewrite IH; [|intros c' Hc'; apply Hl; by right|done]. simpl.
      by rewrite <- (assoc_L (++)). }
  destruct sel as [|c sel]; [simpl in Hlen; lia|]. simpl.
  assert (Hc : color (h c) = col) by (apply Hmono; by left).
  assert (Hfirst : createFireworkParticles h c v
                   = Vfx (emitters (getFireworkParticles col v).2)
                       (emitterCount (getFireworkParticles col v).2)
                       (emissions v ++ [((getFireworkParticles col v).1, c)])).
  { unfold createFireworkParticles. rewrite Hc.
    unfold getFireworkParticles. by destruct (emitters v !! textureKey col). }
  rewrite Hfirst, Hrest; [|intros c' Hc'; apply Hmono; by right|].
  - simpl. rewrite <- (assoc_L (++)). split; [done|]. split; [done|].
    unfold getFireworkParticles. destruct (emitters v !! textureKey col); simpl; lia.
  - simpl. unfold getFireworkParticles.
    destruct (emitters v !! textureKey col) as [e|] eqn:Hk; simpl; [done|].
    apply lookup_insert_eq.
Qed.

(** ** The sample configuration, and the claims on concrete scenes *)

(** On a staggered grid the two tables are mutually inverse, for rows of any
    sign. *)
Lemma staggered_inverse width height rnd :
  mutuallyInverse (K := staggered width height rnd).
Proof.
  intros [ca xa ya aa] [cb xb yb ab]. unfold isValidAdjacentCircle, someOffset.
  cbn [ADJACENT_CIRCLE_OFFSETS_RIGHT_LEANING ADJACENT_CIRCLE_OFFSETS_LEFT_LEANING
       staggered existsb fst snd gridX gridY].
  pose proof (Z.quot_rem' ya 2) as Ha. pose proof (Z.quot_rem' yb 2) as Hb.
  pose proof (Z.rem_bound_abs ya 2) as Ba. pose proof (Z.rem_bound_abs yb 2) as Bb.
  destruct (Z.rem ya 2 =? 0) eqn:Ea, (Z.rem yb 2 =? 0) eqn:Eb;
    rewrite ?orb_false_r, ?orb_true_iff, ?andb_true_iff, ?Z.eqb_eq;
    apply Z.eqb_eq in Ea || apply Z.eqb_neq in Ea;
    apply Z.eqb_eq in Eb || apply Z.eqb_neq in Eb; lia.
Qed.

Example touches_reach_triangle :
  touches (K := demo2x2) [0; 1; 3]%nat round2x2 = Some triangle.
Proof. reflexivity. Qed.

Example touches_reach_looped :
  touches (K := demo2x2) [0; 1; 3; 0]%nat round2x2 = Some looped.
Proof. reflexivity. Qed.


(** Claim C4 as stated fails: with the loop 0, 1, 3, 0 open, touching the
    second-to-last circle 3 pops the tail, and closes the loop state. *)
Lemma backtrack_while_looped :
  touches (K := demo2x2) [0; 1; 3; 0]%nat round2x2 = Some looped ∧
  loopCreated looped = true ∧
  selectedCircles looped = [0; 1; 3; 0]%nat ∧
  isBackTracking looped 3 = true ∧
  ∃ s', onOverlap (K := demo2x2) 3 looped = Some s' ∧
        selectedCircles s' = [0; 1; 3]%nat ∧
        loopCreated s' = false.
Proof.
  do 4 (split; [reflexivity|]). eexists. split; [reflexivity|]. split; reflexivity.
Qed.

Lemma looped_chainOk : chainOk (K := demo2x2) (heap looped) (selectedCircles looped).
Proof.
  destruct (touches_chainOk (K := demo2x2) [0; 1; 3; 0]%nat round2x2) as (s & Hs & _ & _ & Hok).
  { apply chainOk_nil. }
  rewrite touches_reach_looped in Hs. by injection Hs as <-.
Qed.

(** The backtrack out of the open loop 0, 1, 3, 0. *)
Lemma backtrack_pops_witness :
  ∃ s', onOverlap (K := demo2x2) 3 looped = Some s' ∧
        selectedCircles s' = [0; 1; 3]%nat ∧
        length (selectedCircles looped) = S (length (selectedCircles s')) ∧
        loopCreated s' = false ∧
        currentPointsToAdd s' = currentPointsToAdd looped - 1 ∧
        heap s' = heap looped ∧ board s' = board looped ∧ score s' = score looped.
Proof.
  apply (backtrack_pops (K := demo2x2) looped [0; 1; 3]%nat 0%nat 3%nat).
  - apply staggered_inverse.
  - apply looped_chainOk.
  - reflexivity.
  - reflexivity.
Defined.

(** Closing the loop on the chain 0, 1, 3 by touching 0. *)
Lemma loop_closure_witness :
  ∃ s', onOverlap (K := demo2x2) 0 triangle = Some s' ∧
        loopCreated s' = true ∧
        allSimilarColorCircles s' =
          Some (filter (λ x, color (heap triangle x) = color (heap triangle 0%nat))
                  (concat (board triangle))) ∧
        (∀ x sim, allSimilarColorCircles s' = Some sim →
           x ∈ sim ↔ (∃ col, col ∈ board triangle ∧ x ∈ col) ∧
                     color (heap triangle x) = color (heap triangle 0%nat)) ∧
        selectedCircles s' = selectedCircles triangle ++ [0%nat] ∧
        currentPointsToAdd s' = currentPointsToAdd triangle + 1 ∧
        heap s' = heap triangle ∧ board s' = board triangle.
Proof.
  apply (loop_closure (K := demo2x2) triangle 0%nat); reflexivity.
Defined.

Example looped_sets :
  allSimilarColorCircles looped = Some [0; 1; 3]%nat ∧
  selectedCircles looped = [0; 1; 3; 0]%nat.
Proof. split; reflexivity. Qed.


Lemma compaction_order_witness :
  ∃ s' newCircles,
    updateColumn (K := column5) 0 twoCleared = Some s' ∧
    index (board s') 0 = Some (newCircles ++ survivors (heap twoCleared) [0; 1; 2; 3; 4]%nat) ∧
    length newCircles = deadCount (heap twoCleared) [0; 1; 2; 3; 4]%nat ∧
    (∀ k n, newCircles !! k = Some n →
       (nextId twoCleared ≤ n)%nat ∧
       heap s' n = Circle (pick (Constants := column5) n) 0 (Z.of_nat k) true) ∧
    (∀ i c, [0; 1; 2; 3; 4]%nat !! i = Some c → active (heap twoCleared c) = true →
       (newCircles ++ survivors (heap twoCleared) [0; 1; 2; 3; 4]%nat)
         !! (i + deadBelow (heap twoCleared) [0; 1; 2; 3; 4]%nat i)%nat = Some c ∧
       heap s' c = fall (Z.of_nat (deadBelow (heap twoCleared) [0; 1; 2; 3; 4]%nat i))
                     (heap twoCleared c)).
Proof.
  apply (compaction_order (K := column5) twoCleared 0 [0; 1; 2; 3; 4]%nat).
  - reflexivity.
  - reflexivity.
  - apply (bool_decide_unpack _). by vm_compute.
  - apply Forall_forall. apply (bool_decide_unpack _). by vm_compute.
Defined.

(** The scenario of claim C2: rows 0, 2 and 4 survive, in that order, in the
    bottom three slots, at rows 2, 3 and 4; two new circles fill rows 0
    and 1. *)
Example compaction_scenario :
  ∃ s', updateColumn (K := column5) 0 twoCleared = Some s' ∧
        board s' = [[5; 6; 0; 2; 4]%nat] ∧
        (gridY (heap s' 0%nat), gridY (heap s' 2%nat), gridY (heap s' 4%nat)) = (2, 3, 4) ∧
        (gridY (heap s' 5%nat), gridY (heap s' 6%nat)) = (0, 1) ∧
        (color (heap s' 0%nat), color (heap s' 2%nat), color (heap s' 4%nat)) = (1, 2, 1).
Proof. eexists. split; [reflexivity|]. by vm_compute. Qed.

(** Committing the chain 0, 1, 3. *)
Lemma commit_points_witness :
  ∃ s', clearAllSelectedCircles triangle = Some s' ∧
        selectedCircles s' = [0; 1; 3]%nat ∧
        score s' - score triangle = specPoints (Z.of_nat (length [0; 1; 3]%nat)) ∧
        (length [0; 1; 3]%nat = 9%nat → score s' = score triangle + 9) ∧
        (length [0; 1; 3]%nat = 10%nat → score s' = score triangle + 20) ∧
        (length [0; 1; 3]%nat = 1%nat → score s' = score triangle + 1).
Proof.
  apply (commit_points triangle [0; 1; 3]%nat); [reflexivity|done].
Defined.

Example points_9_10_1 : (pointsFor 9, pointsFor 10, pointsFor 1) = (9, 20, 1).
Proof. reflexivity. Qed.

(** [clearAllSelectedCircles] on a chain of one circle adds one point. *)
Example commit_one :
  ∃ s', clearAllSelectedCircles oneTouched = Some s' ∧ score s' = score oneTouched + 1.
Proof. eexists. split; reflexivity. Qed.


Example scenario_triangle_release :
  ∃ s1 s2, onPointerUp triangle = Some s1 ∧
           score s1 = 3 ∧
           shrinkTweens s1 = [ShrinkBatch 0 [0; 1] [0; 1; 3]%nat] ∧
           runShrinkTweens (K := demo2x2) 3 0 s1 = Some s2 ∧
           selectedCircles s2 = [] ∧
           board s2 = [[4; 2]; [5; 6]]%nat.
Proof. do 2 eexists. split; [reflexivity|]. by vm_compute. Qed.

(** Releasing the open loop 0, 1, 3, 0: three circles of colour 7 on the
    board, three points, for a chain of four entries. *)
Lemma loop_commit_witness :
  ∃ c sim s',
    last (selectedCircles looped) = Some c ∧
    sim = filter (λ x, color (heap looped x) = color (heap looped c)) (concat (board looped)) ∧
    allSimilarColorCircles looped = Some sim ∧
    onPointerUp looped = Some s' ∧
    selectedCircles s' = sim ∧
    last (shrinkTweens s') = Some (ShrinkBatch 0 (columnsOf (heap looped) sim) sim) ∧
    score s' = score looped + (if 10 <=? Z.of_nat (length sim)
                               then 2 * Z.of_nat (length sim) else Z.of_nat (length sim)) ∧
    (NoDup (concat (board looped)) → NoDup sim).
Proof.
  apply (loop_commit (K := demo2x2) round2x2 [0; 1; 3; 0]%nat looped).
  - reflexivity.
  - apply Forall_forall. apply (bool_decide_unpack _). by vm_compute.
  - reflexivity.
  - reflexivity.
  - reflexivity.
Defined.

Example scenario_looped_release :
  ∃ s', onPointerUp looped = Some s' ∧
        length (selectedCircles looped) = 4%nat ∧
        selectedCircles s' = [0; 1; 3]%nat ∧
        score s' = score looped + 3.
Proof. eexists. split; [reflexivity|]. by vm_compute. Qed.

(** The end of the countdown with a score of 3 and a high score of 0. *)
Example countdown_scenario :
  highScore (addPoints 3 triangle) = 0 ∧
  highScore (onCountdownComplete (addPoints 3 triangle)) = 3 ∧
  menu (onCountdownComplete (addPoints 3 triangle)) = Some (EndOfRoundMenu 3 3) ∧
  highScore (onStartButton (K := demo2x2) (onCountdownComplete (addPoints 3 triangle))) = 3 ∧
  score (onStartButton (K := demo2x2) (onCountdownComplete (addPoints 3 triangle))) = 0.
Proof. by vm_compute. Qed.

(** Releasing after a single touch. *)
Lemma single_release_witness :
  ∃ s', onPointerUp oneTouched = Some s' ∧
        selectedCircles s' = [] ∧
        currentPointsToAdd s' = currentPointsToAdd oneTouched ∧
        score s' = score oneTouched ∧ highScore s' = highScore oneTouched ∧
        loopCreated s' = loopCreated oneTouched ∧
        allSimilarColorCircles s' = allSimilarColorCircles oneTouched ∧
        board s' = board oneTouched ∧ heap s' = heap oneTouched ∧
        shrinkTweens s' = shrinkTweens oneTouched ∧
        (∀ s0, selectedCircles s0 = [] → loopCreated s0 = false →
               currentPointsToAdd s0 = 0 →
               onOverlap (K := demo2x2) 0 s0 = Some oneTouched →
               currentPointsToAdd s' = 1) ∧
        (∀ e t t', step (K := demo2x2) e t = Some t' →
           currentPointsToAdd t' = currentPointsToAdd t ∨
           (∃ c', e = Overlap c' ∧
                  (currentPointsToAdd t' = currentPointsToAdd t + 1 ∨
                   currentPointsToAdd t' = currentPointsToAdd t - 1)) ∨
           (e = PointerUp ∧ gameIsRunning t = true ∧
            (1 < length (selectedCircles t))%nat ∧ currentPointsToAdd t' = 0) ∨
           (e = StartButton ∧ currentPointsToAdd t' = 0)).
Proof.
  apply (single_release (K := demo2x2) oneTouched 0%nat); reflexivity.
Defined.

Example scenario_one_touch_release :
  ∃ s', onPointerUp oneTouched = Some s' ∧
        selectedCircles s' = [] ∧ currentPointsToAdd s' = 1 ∧ score s' = 0.
Proof. eexists. split; [reflexivity|]. by vm_compute. Qed.

(** ** Further properties on concrete scenes *)

Lemma staggered_noSelfOffset width height rnd :
  noSelfOffset (K := staggered width height rnd).
Proof. split; reflexivity. Qed.

Lemma reachable_wf_witness : wfBoard (K := demo2x2) demoPlayed.
Proof. apply (reachable_wf (K := demo2x2) demoEvents demoPlayed). reflexivity. Defined.

Example demoPlayed_board :
  board demoPlayed = [[4; 2]; [5; 6]]%nat ∧ selectedCircles demoPlayed = [] ∧
  score demoPlayed = 3.
Proof. by vm_compute. Qed.

Lemma reachable_grid_witness :
  (∀ x col i c, board demoPlayed !! x = Some col → col !! i = Some c →
     gridX (heap demoPlayed c) = Z.of_nat x ∧ gridY (heap demoPlayed c) = Z.of_nat i) ∧
  (∀ x x' col col' i i' c,
     board demoPlayed !! x = Some col → col !! i = Some c →
     board demoPlayed !! x' = Some col' → col' !! i' = Some c →
     x = x' ∧ i = i').
Proof. apply (reachable_grid (K := demo2x2) demoEvents demoPlayed). reflexivity. Defined.

Lemma reachable_counters_witness :
  0 ≤ score demoPlayed ∧ 0 ≤ highScore demoPlayed ∧ 0 ≤ currentPointsToAdd demoPlayed ∧
  (boardRefillHappening demoPlayed = true → pointerBodyEnabled demoPlayed = false) ∧
  (boardRefillHappening demoPlayed = false →
     Z.of_nat (length (selectedCircles demoPlayed)) ≤ currentPointsToAdd demoPlayed) ∧
  (gameIsRunning demoPlayed = false → score demoPlayed ≤ highScore demoPlayed).
Proof. apply (reachable_counters (K := demo2x2) demoEvents demoPlayed). reflexivity. Defined.


Lemma preview_tracks_chain_witness :
  currentPointsToAdd triangle - Z.of_nat (length (selectedCircles triangle))
    = currentPointsToAdd round2x2 - Z.of_nat (length (selectedCircles round2x2)) ∧
  (selectedCircles round2x2 = [] → currentPointsToAdd round2x2 = 0 →
     currentPointsToAdd triangle = Z.of_nat (length (selectedCircles triangle))).
Proof.
  apply (preview_tracks_chain (K := demo2x2) [0; 1; 3]%nat round2x2 triangle). reflexivity.
Defined.

Lemma tail_overlap_ignored_witness :
  onOverlap (K := demo2x2) 3 triangle = Some triangle.
Proof.
  apply (tail_overlap_ignored (K := demo2x2) triangle 3%nat).
  - apply staggered_noSelfOffset.
  - reflexivity.
Defined.

Lemma append_backtrack_roundtrip_witness :
  ∃ s1, onOverlap (K := demo2x2) 3 twoTouched = Some s1 ∧
        selectedCircles s1 = [0]%nat ++ [1; 3]%nat ∧
        onOverlap (K := demo2x2) 1 s1 = Some twoTouched.
Proof.
  apply (append_backtrack_roundtrip (K := demo2x2) twoTouched [0]%nat 1%nat 3%nat).
  - apply staggered_inverse.
  - reflexivity.
  - reflexivity.
  - reflexivity.
  - reflexivity.
Defined.

Lemma refill_freezes_pointer_witness :
  boardRefillHappening released = true ∧ pointerBodyEnabled released = false ∧
  run (K := demo2x2) [PointerDown; Overlap 2; Overlap 0; PointerDown] released
    = Some released.
Proof.
  apply (refill_freezes_pointer (K := demo2x2) triangle released
           [PointerDown; Overlap 2; Overlap 0; PointerDown]).
  - reflexivity.
  - simpl. lia.
  - reflexivity.
  - repeat constructor.
Defined.

Lemma release_twice_witness :
  ∃ s1 s2,
    onPointerUp triangle = Some s1 ∧ onPointerUp s1 = Some s2 ∧
    score s1 = score triangle + pointsFor (Z.of_nat (length [0; 1; 3]%nat)) ∧
    score s2 = score triangle + 2 * pointsFor (Z.of_nat (length [0; 1; 3]%nat)) ∧
    shrinkTweens s2 =
      shrinkTweens triangle
        ++ [ShrinkBatch 0 (columnsOf (heap triangle) [0; 1; 3]%nat) [0; 1; 3]%nat;
            ShrinkBatch 0 (columnsOf (heap triangle) [0; 1; 3]%nat) [0; 1; 3]%nat] ∧
    board s2 = board triangle.
Proof.
  apply (release_twice triangle [0; 1; 3]%nat).
  - reflexivity.
  - simpl. lia.
  - reflexivity.
  - simpl. lia.
Defined.

Example release_twice_score :
  ∃ s1 s2, onPointerUp triangle = Some s1 ∧ onPointerUp s1 = Some s2 ∧
           score triangle = 0 ∧ score s2 = 6.
Proof. do 2 eexists. split; [reflexivity|]. split; [reflexivity|]. by vm_compute. Qed.


Lemma compaction_idempotent_witness :
  updateColumn (K := column5) 0 compacted5 = Some compacted5.
Proof.
  apply (compaction_idempotent (K := column5) twoCleared compacted5 0 [0; 1; 2; 3; 4]%nat).
  - reflexivity.
  - simpl. lia.
  - reflexivity.
Defined.

Example columns_of_triangle :
  columnsOf (heap triangle) [0; 1; 3]%nat = [0; 1] ∧
  columnsOf (heap round2x2) [0; 2; 1; 3]%nat = [0; 1].
Proof. split; reflexivity. Qed.

Lemma preview_matches_award_witness :
  ((length (selectedCircles triangle) ≤ 1)%nat →
     pointsToBeAddedText (Display (previewText 3) "Score: 0") = "") ∧
  ((1 < length (selectedCircles triangle))%nat →
     ∀ sel, clearSet triangle = Some sel →
       pointsToBeAddedText (Display (previewText 3) "Score: 0")
         = previewText (Z.of_nat (length sel)) ∧
       (sel ≠ [] → gameIsRunning triangle = true →
          ∃ s' d', onPointerUpShown (triangle, Display (previewText 3) "Score: 0")
                     = Some (s', d') ∧
                   score s' = score triangle + (if Z.of_nat (length sel) >=? 10
                                                then Z.of_nat (length sel) * 2
                                                else Z.of_nat (length sel)) ∧
                   pointsToBeAddedText d' = "" ∧
                   scoreBoardText d' = "Score: " +:+ pretty (score s'))).
Proof.
  apply (preview_matches_award (K := demo2x2) round2x2 (Display "" "Score: 0")
           [0; 1; 3]%nat triangle (Display (previewText 3) "Score: 0")); reflexivity.
Defined.

Example preview_of_triangle :
  previewText 3 = "+ 3!" ∧ previewText 10 = "+ 10 X2!" ∧
  touchesShown (K := demo2x2) [0; 1; 3; 0]%nat (round2x2, Display "" "Score: 0")
    = Some (looped, Display "+ 3!" "Score: 0").
Proof. repeat split; reflexivity. Qed.

Lemma scoreboard_shows_score_witness :
  scoreBoardText demoShown.2
  = if gameIsRunning demoShown.1 then "Score: " +:+ pretty (score demoShown.1) else "".
Proof.
  apply (scoreboard_shows_score (K := demo2x2) demoEvents demoShown.1 demoShown.2).
  reflexivity.
Defined.

Example scoreboard_of_demo : scoreBoardText demoShown.2 = "Score: 3".
Proof. reflexivity. Qed.


Lemma noEmitters_ok : vfxOk noEmitters.
Proof. intros k e Hk. simpl in Hk. by rewrite lookup_empty in Hk. Qed.

Lemma emitter_cache_witness :
  getFireworkParticles 0xff0000 (getFireworkParticles 0xff0000 noEmitters).2
    = ((getFireworkParticles 0xff0000 noEmitters).1,
       (getFireworkParticles 0xff0000 noEmitters).2) ∧
  (emitterCount noEmitters
   ≤ emitterCount (getFireworkParticles 0xff0000 noEmitters).2
   ≤ S (emitterCount noEmitters))%nat ∧
  ((getFireworkParticles 0x00ff00 (getFireworkParticles 0xff0000 noEmitters).2).1
   = (getFireworkParticles 0xff0000 noEmitters).1
   ↔ 0xff0000 = 0x00ff00).
Proof. apply (emitter_cache 0xff0000 0x00ff00 noEmitters), noEmitters_ok. Defined.

Example texture_keys :
  textureKey 0xff0000 = "circleParticle_ff0000" ∧ textureKey 0 = "circleParticle_0".
Proof. split; reflexivity. Qed.

Lemma commit_fireworks_witness :
  (Z.of_nat (length [0; 1; 3; 0; 1; 3; 0; 1; 3; 0]%nat) < 10 →
     commitFireworks (heap round2x2) [0; 1; 3; 0; 1; 3; 0; 1; 3; 0]%nat noEmitters
     = noEmitters) ∧
  (10 ≤ Z.of_nat (length [0; 1; 3; 0; 1; 3; 0; 1; 3; 0]%nat) →
     emissions (commitFireworks (heap round2x2) [0; 1; 3; 0; 1; 3; 0; 1; 3; 0]%nat
                  noEmitters)
       = emissions noEmitters
           ++ ((λ c, ((getFireworkParticles 7 noEmitters).1, c))
                 <$> [0; 1; 3; 0; 1; 3; 0; 1; 3; 0]%nat) ∧
     emitters (commitFireworks (heap round2x2) [0; 1; 3; 0; 1; 3; 0; 1; 3; 0]%nat
                 noEmitters)
       = emitters (getFireworkParticles 7 noEmitters).2 ∧
     (emitterCount (commitFireworks (heap round2x2) [0; 1; 3; 0; 1; 3; 0; 1; 3; 0]%nat
                      noEmitters)
      ≤ S (emitterCount noEmitters))%nat).
Proof.
  apply (commit_fireworks (heap round2x2) [0; 1; 3; 0; 1; 3; 0; 1; 3; 0]%nat 7 noEmitters).
  apply Forall_forall. apply (bool_decide_unpack _). by vm_compute.
Defined.

Lemma triangle_wf : wfBoard (K := demo2x2) triangle ∧ wfGrid triangle.
Proof.
  assert (Hrun : run (K := demo2x2) [StartButton; Overlap 0; Overlap 1; Overlap 3] create
                 = Some triangle) by reflexivity.
  assert (Hwf0 : wfBoard (K := demo2x2) create).
  { intros col Hcol. by apply elem_of_nil in Hcol. }
  split.
  - exact (run_wfBoard (K := demo2x2) _ create triangle Hwf0 Hrun).
  - refine (run_wfGrid (K := demo2x2) _ create triangle Hwf0 _ Hrun).
    intros x col i c Hcol. simpl in Hcol. by rewrite lookup_nil in Hcol.
Qed.

Lemma clear_refills_board_witness :
  ∃ s1 s2,
    onPointerUp triangle = Some s1 ∧
    runShrinkTweens (K := demo2x2) (length [0; 1; 3]%nat)
      (length (shrinkTweens triangle)) s1 = Some s2 ∧
    selectedCircles s2 = [] ∧
    boardRefillHappening s2 = false ∧
    length (board s2) = length (board triangle) ∧
    (∀ col, col ∈ board s2 →
       length col = 2%nat ∧ ∀ c, c ∈ col → active (heap s2 c) = true) ∧
    (∀ c, c ∈ [0; 1; 3]%nat → active (heap s2 c) = false ∧ c ∉ concat (board s2)).
Proof.
  apply (clear_refills_board (K := demo2x2) triangle [0; 1; 3]%nat).
  - apply triangle_wf.
  - apply triangle_wf.
  - apply Forall_forall. apply (bool_decide_unpack _). by vm_compute.
  - reflexivity.
  - simpl. lia.
  - reflexivity.
  - done.
  - apply Forall_forall. apply (bool_decide_unpack _). by vm_compute.
Defined.
